(** * The session coordinator of [AuthProvider.tsx] and the analysis mutation
      of [useInstagramAnalysis.ts], as a shallow embedding.

    The React component keeps eight [useState] cells; every handler of the
    component (the continuation of [initializeAuth] after its [await], the
    [onAuthStateChange] callback, the continuations of the two loaders, the
    actions) runs to completion on the single JavaScript thread and performs
    a sequence of setter calls.  A handler is therefore a function on a
    [World]: the eight cells, [localStorage], the [mounted] variable of every
    run of the effect, the live listener registrations and the asynchronous
    operations that are still in flight. *)

From Stdlib Require Import ZArith Lia Bool Ascii String.
From stdpp Require Import base option list gmap strings.

Local Open Scope string_scope.

(** ** Data model *)

(** [interface Business] of AuthProvider.tsx. *)
Record Business := mkBusiness {
  b_id : string;
  b_name : string;
  b_industry : option string;
  b_created_at : string
}.

(** [User] and [Session] of the identity provider; a session always embeds
    its user ([newSession.user], [initialSession.user]). *)
Record User := mkUser {
  u_id : string;
  u_email : option string
}.

Record Session := mkSession {
  access_token : string;
  s_user : User
}.

(** [UserSubscription] of auth.types, with the fields the object literals of
    [loadSubscription] give it. *)
Record UserSubscription := mkSubscription {
  sub_id : string;
  sub_user_id : string;
  sub_plan : string;
  sub_status : string;
  sub_credits : Z;
  sub_credits_used : Z;
  sub_period_start : string;
  sub_period_end : string
}.

#[global] Instance Business_eq_dec : EqDecision Business.
Proof. solve_decision. Defined.
#[global] Instance User_eq_dec : EqDecision User.
Proof. solve_decision. Defined.
#[global] Instance Session_eq_dec : EqDecision Session.
Proof. solve_decision. Defined.
#[global] Instance UserSubscription_eq_dec : EqDecision UserSubscription.
Proof. solve_decision. Defined.

(** The eight [useState] cells of the component, with their initial values
    (lines 52-59). *)
Record AuthCtx := mkCtx {
  user : option User;
  session : option Session;
  isAuthenticated : bool;
  isLoading : bool;
  error : option string;
  businesses : list Business;
  selectedBusiness : option Business;
  subscription : option UserSubscription
}.

Definition initial_ctx : AuthCtx :=
  {| user := None; session := None; isAuthenticated := false;
     isLoading := true; error := None; businesses := [];
     selectedBusiness := None; subscription := None |}.

(** ** Values that cross the boundary of the component *)

(** What a [catch (err)] clause can receive: the handlers only ask whether
    [err] is a [SupabaseAuthError] (a subclass of [Error]), some other
    [Error], or not an [Error] at all. *)
Inductive Thrown :=
| AuthErr (message : string)
| PlainErr (message : string)
| NotAnError.

(** An awaited promise either fulfils with a value or rejects. *)
Inductive Settled (A : Type) :=
| Fulfilled (v : A)
| Rejected (e : Thrown).
Arguments Fulfilled {A} v.
Arguments Rejected {A} e.

(** The response envelope of [httpClient.get]: [{success, data}]. *)
Record ApiResponse (A : Type) := mkResponse {
  success : bool;
  data : option A
}.
Arguments mkResponse {A} _ _.
Arguments success {A} _.
Arguments data {A} _.

(** [{ data: { session }, error }] as [supabase.auth.getSession()] returns it. *)
Record GetSessionResult := mkGetSession {
  gs_session : option Session;
  gs_error : option string
}.

(** The event names of the provider's change stream. *)
Inductive AuthChangeEvent :=
| INITIAL_SESSION | PASSWORD_RECOVERY | SIGNED_IN | SIGNED_OUT
| TOKEN_REFRESHED | USER_UPDATED | MFA_CHALLENGE_VERIFIED.

#[global] Instance Thrown_eq_dec : EqDecision Thrown.
Proof. solve_decision. Defined.
#[global] Instance AuthChangeEvent_eq_dec : EqDecision AuthChangeEvent.
Proof. solve_decision. Defined.

(** ** The closures of one run of the effect

    Every run of the [useEffect] body (line 139) declares its own [mounted]
    variable, and calls the [loadBusinesses] of the render that scheduled it,
    whose [useCallback] closed over that render's [selectedBusiness]
    (dependency list of line 90). *)
Record EffectRun := mkRun {
  mounted : bool;
  captured_selected : option Business
}.

(** ** Asynchronous operations in flight *)
Inductive Task :=
| TGetSession (k : nat)
| TDeferred (k : nat) (uid : string)
| TLoadBusinesses (captured : option Business) (uid : string)
| TLoadSubscription (uid : string)
| TSignIn
| TSignOut.

#[global] Instance Task_eq_dec : EqDecision Task.
Proof. solve_decision. Defined.

(** ** The world a handler runs in *)
Record World := mkWorld {
  ctx : AuthCtx;
  localStorage : gmap string string;
  runs : list EffectRun;
  listeners : list nat;
  tasks : list Task
}.

Definition initial_world : World :=
  {| ctx := initial_ctx; localStorage := ∅; runs := []; listeners := [];
     tasks := [] |}.

(** The persisted selection key. *)
Definition SELECTED_KEY : string := "oslira-selected-business".

(** *** The setters *)

Definition with_ctx (f : AuthCtx → AuthCtx) (w : World) : World :=
  {| ctx := f (ctx w); localStorage := localStorage w; runs := runs w;
     listeners := listeners w; tasks := tasks w |}.

Definition setUser (v : option User) : World → World :=
  with_ctx (λ c, {| user := v; session := session c;
    isAuthenticated := isAuthenticated c; isLoading := isLoading c;
    error := error c; businesses := businesses c;
    selectedBusiness := selectedBusiness c; subscription := subscription c |}).

Definition setSession (v : option Session) : World → World :=
  with_ctx (λ c, {| user := user c; session := v;
    isAuthenticated := isAuthenticated c; isLoading := isLoading c;
    error := error c; businesses := businesses c;
    selectedBusiness := selectedBusiness c; subscription := subscription c |}).

Definition setIsAuthenticated (v : bool) : World → World :=
  with_ctx (λ c, {| user := user c; session := session c;
    isAuthenticated := v; isLoading := isLoading c;
    error := error c; businesses := businesses c;
    selectedBusiness := selectedBusiness c; subscription := subscription c |}).

Definition setIsLoading (v : bool) : World → World :=
  with_ctx (λ c, {| user := user c; session := session c;
    isAuthenticated := isAuthenticated c; isLoading := v;
    error := error c; businesses := businesses c;
    selectedBusiness := selectedBusiness c; subscription := subscription c |}).

Definition setError (v : option string) : World → World :=
  with_ctx (λ c, {| user := user c; session := session c;
    isAuthenticated := isAuthenticated c; isLoading := isLoading c;
    error := v; businesses := businesses c;
    selectedBusiness := selectedBusiness c; subscription := subscription c |}).

Definition setBusinesses (v : list Business) : World → World :=
  with_ctx (λ c, {| user := user c; session := session c;
    isAuthenticated := isAuthenticated c; isLoading := isLoading c;
    error := error c; businesses := v;
    selectedBusiness := selectedBusiness c; subscription := subscription c |}).

Definition setSelectedBusiness (v : option Business) : World → World :=
  with_ctx (λ c, {| user := user c; session := session c;
    isAuthenticated := isAuthenticated c; isLoading := isLoading c;
    error := error c; businesses := businesses c;
    selectedBusiness := v; subscription := subscription c |}).

Definition setSubscription (v : option UserSubscription) : World → World :=
  with_ctx (λ c, {| user := user c; session := session c;
    isAuthenticated := isAuthenticated c; isLoading := isLoading c;
    error := error c; businesses := businesses c;
    selectedBusiness := selectedBusiness c; subscription := v |}).

(** *** [localStorage] *)

Definition setItem (key value : string) (w : World) : World :=
  {| ctx := ctx w; localStorage := <[key := value]> (localStorage w);
     runs := runs w; listeners := listeners w; tasks := tasks w |}.

Definition removeItem (key : string) (w : World) : World :=
  {| ctx := ctx w; localStorage := delete key (localStorage w);
     runs := runs w; listeners := listeners w; tasks := tasks w |}.

(** *** Starting and finishing asynchronous operations *)

Definition spawn (t : Task) (w : World) : World :=
  {| ctx := ctx w; localStorage := localStorage w; runs := runs w;
     listeners := listeners w; tasks := tasks w ++ [t] |}.

Fixpoint remove_first (t : Task) (l : list Task) : list Task :=
  match l with
  | [] => []
  | x :: l' => if decide (x = t) then l' else x :: remove_first t l'
  end.

Definition finish (t : Task) (w : World) : World :=
  {| ctx := ctx w; localStorage := localStorage w; runs := runs w;
     listeners := listeners w; tasks := remove_first t (tasks w) |}.

Definition in_flight (t : Task) (w : World) : bool :=
  bool_decide (t ∈ tasks w).

(** The [mounted] variable of run [k], as a handler of that run reads it. *)
Definition mounted_at (k : nat) (w : World) : bool :=
  match runs w !! k with
  | Some r => mounted r
  | None => false
  end.

Definition captured_at (k : nat) (w : World) : option Business :=
  match runs w !! k with
  | Some r => captured_selected r
  | None => None
  end.

(** ** Selection (lines 284-291) *)

(** [businesses.find((b) => b.id === businessId)]. *)
Definition find_business (businessId : string) (bs : list Business)
  : option Business :=
  List.find (λ b, bool_decide (b_id b = businessId)) bs.

Definition selectBusiness (businessId : string) (w : World) : World :=
  match find_business businessId (businesses (ctx w)) with
  | Some business =>
      setItem SELECTED_KEY (b_id business)
        (setSelectedBusiness (Some business) w)
  | None => w
  end.

(** ** [Date.prototype.toISOString]

    [loadSubscription] renders two clock readings with [toISOString].  A time
    value is a number of milliseconds since the epoch; the civil date is
    recovered from the day number in the proleptic Gregorian calendar.  The
    clock readings, and a reading plus thirty days, are taken inside the
    range of valid dates, where [toISOString] does not raise. *)

Definition MS_PER_DAY : Z := 86400000.

Definition digit_char (d : Z) : ascii := ascii_of_nat (48 + Z.to_nat (d mod 10)).

Fixpoint pad_digits (width : nat) (n : Z) (acc : string) : string :=
  match width with
  | O => acc
  | S w => pad_digits w (n / 10) (String (digit_char n) acc)
  end.

(** Year, month and day of a day number counted from 1970-01-01. *)
Definition civil_from_days (days : Z) : Z * Z * Z :=
  let z := (days + 719468)%Z in
  let era := (z / 146097)%Z in
  let doe := (z - era * 146097)%Z in
  let yoe := ((doe - doe / 1460 + doe / 36524 - doe / 146096) / 365)%Z in
  let doy := (doe - (365 * yoe + yoe / 4 - yoe / 100))%Z in
  let mp := ((5 * doy + 2) / 153)%Z in
  let d := (doy - (153 * mp + 2) / 5 + 1)%Z in
  let m := (if (mp <? 10)%Z then mp + 3 else mp - 9)%Z in
  let y := (yoe + era * 400 + (if (m <=? 2)%Z then 1 else 0))%Z in
  (y, m, d).

Definition year_string (y : Z) : string :=
  if ((0 <=? y) && (y <=? 9999))%Z then pad_digits 4 y EmptyString
  else String (if (y <? 0)%Z then "-"%char else "+"%char)
         (pad_digits 6 (Z.abs y) EmptyString).

Definition toISOString (t : Z) : string :=
  let days := (t / MS_PER_DAY)%Z in
  let ms := (t mod MS_PER_DAY)%Z in
  let '(y, m, d) := civil_from_days days in
  year_string y ++ "-" ++ pad_digits 2 m EmptyString ++ "-"
    ++ pad_digits 2 d EmptyString ++ "T"
    ++ pad_digits 2 (ms / 3600000) EmptyString ++ ":"
    ++ pad_digits 2 (ms / 60000 mod 60) EmptyString ++ ":"
    ++ pad_digits 2 (ms / 1000 mod 60) EmptyString ++ "."
    ++ pad_digits 3 (ms mod 1000) EmptyString ++ "Z".

(** ** Derived data loaders (lines 67-132) *)

(** [30 * 24 * 60 * 60 * 1000] *)
Definition THIRTY_DAYS_MS : Z := 30 * 24 * 60 * 60 * 1000.

(** The object literal of lines 105-114 and 121-130.  [t_start] is the
    reading of [new Date()], [t_now] the later reading of [Date.now()]. *)
Definition free_tier (userId : string) (t_start t_now : Z) : UserSubscription :=
  {| sub_id := EmptyString;
     sub_user_id := userId;
     sub_plan := "free";
     sub_status := "active";
     sub_credits := 25;
     sub_credits_used := 0;
     sub_period_start := toISOString t_start;
     sub_period_end := toISOString (t_now + THIRTY_DAYS_MS) |}.

(** [response.success && response.data]: the data when both are truthy.
    An array or an object is truthy, so the data is truthy when present. *)
Definition success_data {A} (response : ApiResponse A) : option A :=
  if success response then data response else None.

(** The continuation of [loadBusinesses] after [await httpClient.get].
    [captured] is the [selectedBusiness] the callback closed over. *)
Definition loadBusinesses_settled (captured : option Business) (userId : string)
    (r : Settled (ApiResponse (list Business))) (w : World) : World :=
  match r with
  | Fulfilled response =>
      match success_data response with
      | Some d =>
          let w1 := setBusinesses d w in
          if bool_decide (0 < length d) && negb (bool_decide (is_Some captured))
          then match d !! 0%nat with
               | Some firstBusiness =>
                   setItem SELECTED_KEY (b_id firstBusiness)
                     (setSelectedBusiness (Some firstBusiness) w1)
               | None => w1
               end
          else w1
      | None => w
      end
  | Rejected _ => w
  end.

(** The continuation of [loadSubscription] after [await httpClient.get]. *)
Definition loadSubscription_settled (userId : string)
    (r : Settled (ApiResponse UserSubscription)) (t_start t_now : Z)
    (w : World) : World :=
  match r with
  | Fulfilled response =>
      match success_data response with
      | Some d => setSubscription (Some d) w
      | None => setSubscription (Some (free_tier userId t_start t_now)) w
      end
  | Rejected _ => setSubscription (Some (free_tier userId t_start t_now)) w
  end.

(** [Promise.allSettled([loadBusinesses(id), loadSubscription(id)])]: both
    requests are sent before either continuation runs. *)
Definition load_user_data (captured : option Business) (userId : string)
    (w : World) : World :=
  spawn (TLoadSubscription userId) (spawn (TLoadBusinesses captured userId) w).

(** ** The effect (lines 139-271) *)

(** [err instanceof Error ? err.message : fallback] *)
Definition error_message (fallback : string) (err : Thrown) : string :=
  match err with
  | AuthErr m | PlainErr m => m
  | NotAnError => fallback
  end.

(** [err instanceof SupabaseAuthError ? err.message : fallback] *)
Definition auth_error_message (fallback : string) (err : Thrown) : string :=
  match err with
  | AuthErr m => m
  | PlainErr _ | NotAnError => fallback
  end.

(** The continuation of [initializeAuth] of run [k] after
    [await supabase.auth.getSession()], with its [catch] and [finally]. *)
Definition initializeAuth_resumed (k : nat) (r : Settled GetSessionResult)
    (w : World) : World :=
  match r with
  | Fulfilled res =>
      if negb (mounted_at k w) then w
      else
        let w1 :=
          match gs_session res, gs_error res with
          | Some initialSession, None =>
              load_user_data (captured_at k w) (u_id (s_user initialSession))
                (setIsAuthenticated true
                  (setUser (Some (s_user initialSession))
                    (setSession (Some initialSession) w)))
          | _, _ =>
              setIsAuthenticated false (setUser None (setSession None w))
          end in
        setIsLoading false w1
  | Rejected err =>
      if mounted_at k w then
        setIsLoading false
          (setIsAuthenticated false
            (setUser None
              (setSession None
                (setError (Some (error_message "Failed to initialize auth" err)) w))))
      else w
  end.

(** [event === 'SIGNED_IN' || event === 'TOKEN_REFRESHED'] *)
Definition schedules_load (event : AuthChangeEvent) : bool :=
  match event with
  | SIGNED_IN | TOKEN_REFRESHED => true
  | _ => false
  end.

(** The callback run [k] passes to [supabase.auth.onAuthStateChange]. *)
Definition onAuthStateChange_handler (k : nat) (event : AuthChangeEvent)
    (newSession : option Session) (w : World) : World :=
  if negb (mounted_at k w) then w
  else
    match newSession with
    | Some s =>
        let w1 := setIsAuthenticated true
                    (setUser (Some (s_user s)) (setSession (Some s) w)) in
        if schedules_load event then spawn (TDeferred k (u_id (s_user s))) w1
        else w1
    | None =>
        setSubscription None
          (setSelectedBusiness None
            (setBusinesses []
              (setIsAuthenticated false (setUser None (setSession None w)))))
    end.

(** The [setTimeout(..., 0)] callback armed by the handler of run [k]. *)
Definition deferred_load (k : nat) (userId : string) (w : World) : World :=
  if mounted_at k w then load_user_data (captured_at k w) userId w else w.

(** The body of the effect: a fresh [mounted = true], [initializeAuth()]
    started, the listener registered. *)
Definition effect_mount (w : World) : World :=
  let k := length (runs w) in
  {| ctx := ctx w; localStorage := localStorage w;
     runs := runs w ++ [mkRun true (selectedBusiness (ctx w))];
     listeners := listeners w ++ [k];
     tasks := tasks w ++ [TGetSession k] |}.

(** The cleanup of run [k]: [mounted = false; authSubscription.unsubscribe()]. *)
Definition effect_cleanup (k : nat) (w : World) : World :=
  {| ctx := ctx w; localStorage := localStorage w;
     runs := <[k := mkRun false (captured_at k w)]> (runs w);
     listeners := filter (λ j, j ≠ k) (listeners w);
     tasks := tasks w |}.

(** ** Public API (lines 276-334) *)

Definition refreshBusinesses (w : World) : World :=
  match user (ctx w) with
  | Some u => spawn (TLoadBusinesses (selectedBusiness (ctx w)) (u_id u)) w
  | None => w
  end.

Definition refreshSubscription (w : World) : World :=
  match user (ctx w) with
  | Some u => spawn (TLoadSubscription (u_id u)) w
  | None => w
  end.

(** [signInWithOAuth] up to its [await]. *)
Definition signInWithOAuth_called (w : World) : World :=
  spawn TSignIn (setError None (setIsLoading true w)).

(** [signInWithOAuth] after its [await]: the provider's answer is the
    returned [error] field, or a rejection.  The second component is what
    the action raises to its caller, if anything. *)
Definition signInWithOAuth_settled (r : Settled (option string)) (w : World)
  : World * option Thrown :=
  match r with
  | Fulfilled None => (setIsLoading false w, None)
  | Fulfilled (Some m) =>
      (setIsLoading false
         (setError (Some (auth_error_message "Failed to sign in with Google" (AuthErr m))) w),
       Some (AuthErr m))
  | Rejected err =>
      (setIsLoading false
         (setError (Some (auth_error_message "Failed to sign in with Google" err)) w),
       Some err)
  end.

Definition signOut_called (w : World) : World :=
  spawn TSignOut (setError None (setIsLoading true w)).

Definition signOut_settled (r : Settled (option string)) (w : World)
  : World * option Thrown :=
  match r with
  | Fulfilled None => (setIsLoading false (removeItem SELECTED_KEY w), None)
  | Fulfilled (Some m) =>
      (setIsLoading false
         (setError (Some (auth_error_message "Failed to sign out" (AuthErr m))) w),
       Some (AuthErr m))
  | Rejected err =>
      (setIsLoading false
         (setError (Some (auth_error_message "Failed to sign out" err)) w),
       Some err)
  end.

(** ** The coordinator as a labelled transition system

    One label per handler that the JavaScript event loop can dispatch.  A
    continuation can only run when its operation is in flight, and the
    provider only calls a listener that is still subscribed; React runs the
    cleanup of the previous run of an effect before it runs the effect again,
    so [LMount] needs every earlier run to be unmounted. *)
Inductive Label :=
| LMount
| LCleanup (k : nat)
| LSessionFetched (k : nat) (r : Settled GetSessionResult)
| LAuthEvent (k : nat) (event : AuthChangeEvent) (newSession : option Session)
| LDeferredFired (k : nat) (uid : string)
| LBusinessesSettled (captured : option Business) (uid : string)
    (r : Settled (ApiResponse (list Business)))
| LSubscriptionSettled (uid : string) (r : Settled (ApiResponse UserSubscription))
    (t_start t_now : Z)
| LSelectBusiness (businessId : string)
| LRefreshBusinesses
| LRefreshSubscription
| LSignInCalled
| LSignInSettled (r : Settled (option string))
| LSignOutCalled
| LSignOutSettled (r : Settled (option string)).

Definition when (b : bool) (w : World) : option World :=
  if b then Some w else None.

Definition step (l : Label) (w : World) : option World :=
  match l with
  | LMount =>
      when (forallb (λ r, negb (mounted r)) (runs w)) (effect_mount w)
  | LCleanup k =>
      when (mounted_at k w) (effect_cleanup k w)
  | LSessionFetched k r =>
      when (in_flight (TGetSession k) w)
        (initializeAuth_resumed k r (finish (TGetSession k) w))
  | LAuthEvent k event newSession =>
      when (bool_decide (k ∈ listeners w))
        (onAuthStateChange_handler k event newSession w)
  | LDeferredFired k uid =>
      when (in_flight (TDeferred k uid) w)
        (deferred_load k uid (finish (TDeferred k uid) w))
  | LBusinessesSettled captured uid r =>
      when (in_flight (TLoadBusinesses captured uid) w)
        (loadBusinesses_settled captured uid r
           (finish (TLoadBusinesses captured uid) w))
  | LSubscriptionSettled uid r t_start t_now =>
      when (in_flight (TLoadSubscription uid) w)
        (loadSubscription_settled uid r t_start t_now
           (finish (TLoadSubscription uid) w))
  | LSelectBusiness businessId => Some (selectBusiness businessId w)
  | LRefreshBusinesses => Some (refreshBusinesses w)
  | LRefreshSubscription => Some (refreshSubscription w)
  | LSignInCalled => Some (signInWithOAuth_called w)
  | LSignInSettled r =>
      when (in_flight TSignIn w) (signInWithOAuth_settled r (finish TSignIn w)).1
  | LSignOutCalled => Some (signOut_called w)
  | LSignOutSettled r =>
      when (in_flight TSignOut w) (signOut_settled r (finish TSignOut w)).1
  end.

Fixpoint exec (tr : list Label) (w : World) : option World :=
  match tr with
  | [] => Some w
  | l :: tr' =>
      match step l w with
      | Some w' => exec tr' w'
      | None => None
      end
  end.

(** The states the component can be in. *)
Definition reachable (w : World) : Prop :=
  ∃ tr, exec tr initial_world = Some w.

(** ** Predicates the properties are stated with *)

(** [isAuthenticated ⇔ session ≠ null ∧ user ≠ null] *)
Definition auth_consistent (c : AuthCtx) : Prop :=
  isAuthenticated c = true ↔ session c ≠ None ∧ user c ≠ None.


(** [session=null, user=null, isAuthenticated=false] *)
Definition unauthenticated_shape (c : AuthCtx) : Prop :=
  session c = None ∧ user c = None ∧ isAuthenticated c = false.


(** A transition of the change stream that carries no session. *)
Definition is_signout_event (l : Label) : bool :=
  match l with
  | LAuthEvent _ _ None => true
  | _ => false
  end.

(** What a trace's subscription loads stored, oldest first. *)
Definition stored_subscription (l : Label) : option UserSubscription :=
  match l with
  | LSubscriptionSettled uid (Fulfilled response) t_start t_now =>
      Some (default (free_tier uid t_start t_now) (success_data response))
  | LSubscriptionSettled uid (Rejected _) t_start t_now =>
      Some (free_tier uid t_start t_now)
  | _ => None
  end.

(** ** Auxiliary invariants of the transition system *)

(** A listener that is still subscribed belongs to a run whose [mounted]
    is still true: cleanup clears the flag and unsubscribes together. *)
Definition listeners_live (w : World) : Prop :=
  ∀ k, k ∈ listeners w → mounted_at k w = true.



(** ** The Instagram analysis mutation (useInstagramAnalysis.ts, lines 34-71) *)

Module Instagram.

(** A JavaScript string is a sequence of UTF-16 code units. *)
Definition jsstring := list N.

(** WhiteSpace and LineTerminator of ECMAScript, which [trim] strips. *)
Definition is_white_space (c : N) : bool :=
  ((c =? 9) || (c =? 10) || (c =? 11) || (c =? 12) || (c =? 13) || (c =? 32)
   || (c =? 160) || (c =? 5760) || ((8192 <=? c) && (c <=? 8202))
   || (c =? 8232) || (c =? 8233) || (c =? 8239) || (c =? 8287)
   || (c =? 12288) || (c =? 65279))%N.

Fixpoint trimStart (s : jsstring) : jsstring :=
  match s with
  | [] => []
  | c :: s' => if is_white_space c then trimStart s' else s
  end.

Definition trimEnd (s : jsstring) : jsstring := rev (trimStart (rev s)).

Definition trim (s : jsstring) : jsstring := trimEnd (trimStart s).

(** Code unit of ['@']. *)
Definition AT_SIGN : N := 64.

(** [s.replace('@', '')]: with a string pattern, [replace] removes the first
    occurrence only. *)
Fixpoint remove_first_at (s : jsstring) : jsstring :=
  match s with
  | [] => []
  | c :: s' => if (c =? AT_SIGN)%N then s' else c :: remove_first_at s'
  end.

(** [username.trim().replace('@', '')] *)
Definition cleanUsername (username : jsstring) : jsstring :=
  remove_first_at (trim username).

Section Mutation.

(** [InstagramAnalysisResponse] and the values the API call can reject
    with; [../api/instagramApi] supplies the three functions. *)
Variable Response : Type.
Variable ApiFailure : Type.
(** The answer of [await analyzeInstagramAnonymous(u)]. *)
Variable analyzeInstagramAnonymous : jsstring → Response + ApiFailure.
Variable isRateLimitError : ApiFailure → bool.
Variable generateDemoResults : jsstring → Response.
(** Whether [options?.onRateLimit] is provided. *)
Variable hasOnRateLimit : bool.

Inductive Raised :=
| InputError (message : string)
| ApiError (e : ApiFailure).

(** The calls the mutation makes to its collaborators, in order. *)
Inductive Call :=
| CallAnalyze (u : jsstring)
| CallOnRateLimit (e : ApiFailure)
| CallGenerateDemo (u : jsstring).

(** [mutationFn]: the calls it made, and how its promise settles
    ([inl] resolves, [inr] rejects). *)
Definition mutationFn (username : jsstring) : list Call * (Response + Raised) :=
  let clean := cleanUsername username in
  match clean with
  | [] => ([], inr (InputError "Please enter an Instagram username"))
  | _ :: _ =>
      match analyzeInstagramAnonymous clean with
      | inl result => ([CallAnalyze clean], inl result)
      | inr error =>
          if isRateLimitError error then
            (CallAnalyze clean
               :: (if hasOnRateLimit then [CallOnRateLimit error] else []),
             inr (ApiError error))
          else
            ([CallAnalyze clean; CallGenerateDemo clean],
             inl (generateDemoResults clean))
      end
  end.

Definition calls_api (cs : list Call) : Prop :=
  ∃ u, CallAnalyze u ∈ cs.

End Mutation.

Arguments InputError {ApiFailure} message.
Arguments ApiError {ApiFailure} e.
Arguments CallAnalyze {ApiFailure} u.
Arguments CallOnRateLimit {ApiFailure} e.
Arguments CallGenerateDemo {ApiFailure} u.
Arguments calls_api {ApiFailure} cs.

End Instagram.

(** ** Concrete scenarios *)

Definition user_U : User := mkUser "U" None.
Definition session_U : Session := mkSession "token-U" user_U.
Definition biz_a : Business := mkBusiness "a" "Acme" None "2024-01-01T00:00:00.000Z".
Definition biz_b : Business := mkBusiness "b" "Bolt" None "2024-02-01T00:00:00.000Z".

Definition server_subscription : UserSubscription :=
  {| sub_id := "sub_1"; sub_user_id := "U"; sub_plan := "pro";
     sub_status := "active"; sub_credits := 500; sub_credits_used := 12;
     sub_period_start := "2024-01-01T00:00:00.000Z";
     sub_period_end := "2024-01-31T00:00:00.000Z" |}.

(** Scenario B of the specification, up to the business load: the effect
    runs, its session fetch returns a session for [U], the business fetch
    returns [a]. *)
Definition trace_selected_a : list Label :=
  [ LMount;
    LSessionFetched 0 (Fulfilled (mkGetSession (Some session_U) None));
    LBusinessesSettled None "U" (Fulfilled (mkResponse true (Some [biz_a]))) ].

Definition world_selected_a : World :=
  default initial_world (exec trace_selected_a initial_world).

(** ** Further predicates on the coordinator *)

(** [user] is the user of the current [session] (every [setUser] sits next
    to a [setSession] of the same transition), and [isAuthenticated] says
    whether there is one. *)
Definition session_store_tracks (c : AuthCtx) : Prop :=
  user c = s_user <$> session c
  ∧ isAuthenticated c = bool_decide (is_Some (session c)).

(** The three cells of the session store. *)
Definition session_cells (c : AuthCtx) : option Session * option User * bool :=
  (session c, user c, isAuthenticated c).

(** The handlers that call [setError]. *)
Definition may_write_error (l : Label) : bool :=
  match l with
  | LSessionFetched _ (Rejected _) => true
  | LSignInCalled | LSignInSettled _ | LSignOutCalled | LSignOutSettled _ => true
  | _ => false
  end.


(** ** The mutation as its consumer sees it (useInstagramAnalysis.ts,
    lines 32-91)

    [useMutation] runs [mutationFn] and then calls the hook's [onSuccess]
    with the data the promise resolved with, or the hook's [onError] with
    the value it rejected with; the two callbacks of lines 73-90 forward to
    the consumer's [options] when these provide one. *)

Module InstagramHook.

Section Hook.

Variable Response : Type.
Variable ApiFailure : Type.
Variable analyzeInstagramAnonymous : Instagram.jsstring → Response + ApiFailure.
Variable isRateLimitError : ApiFailure → bool.
Variable generateDemoResults : Instagram.jsstring → Response.
(** Which of [options.onSuccess], [options.onRateLimit], [options.onError]
    the consumer provides. *)
Variable hasOnSuccess : bool.
Variable hasOnRateLimit : bool.
Variable hasOnError : bool.

(** The consumer callbacks, as they are invoked. *)
Inductive Notified :=
| NotifiedSuccess (data : Response)
| NotifiedRateLimit (e : ApiFailure)
| NotifiedError (e : Instagram.Raised ApiFailure).

Definition onSuccess (data : Response) : list Notified :=
  if hasOnSuccess then [NotifiedSuccess data] else [].

Definition onError (e : Instagram.Raised ApiFailure) : list Notified :=
  if hasOnError then [NotifiedError e] else [].

(** The [options.onRateLimit(error)] calls made inside [mutationFn]. *)
Definition rate_limit_notifications (cs : list (Instagram.Call ApiFailure))
  : list Notified :=
  omap (λ c, match c with
             | Instagram.CallOnRateLimit e => Some (NotifiedRateLimit e)
             | _ => None
             end) cs.

(** One [mutate(username)]: the consumer callbacks in the order of their
    invocation. *)
Definition mutate (username : Instagram.jsstring) : list Notified :=
  let '(cs, settled) :=
    Instagram.mutationFn Response ApiFailure analyzeInstagramAnonymous
      isRateLimitError generateDemoResults hasOnRateLimit username in
  (rate_limit_notifications cs
     ++ match settled with
        | inl data => onSuccess data
        | inr e => onError e
        end)%list.

End Hook.

Arguments NotifiedSuccess {Response ApiFailure} data.
Arguments NotifiedRateLimit {Response ApiFailure} e.
Arguments NotifiedError {Response ApiFailure} e.

End InstagramHook.

(** ** Application entry point (main.tsx) *)

Module Main.

(** What the [catch (error)] of the start-up function can receive: an
    [Error] with its message, or another value with its [String(error)]. *)
Inductive JsThrown :=
| ThrownError (message : string)
| ThrownValue (rendering : string).

(** [(error instanceof Error ? error : new Error(String(error))).message] *)
Definition message_of (e : JsThrown) : string :=
  match e with
  | ThrownError m => m
  | ThrownValue s => s
  end.

(** What the element with id [root] holds. *)
Inductive RootContent :=
| Markup (html : string)
| ReactApp.

(** The document: with a [root] element and its content, or without one
    and with the markup of [document.body]. *)
Inductive Page :=
| WithRoot (content : RootContent)
| NoRoot (bodyHtml : string).

Definition DQ : string := String (ascii_of_nat 34) EmptyString.

(** The markup of line 25. *)
Definition FATAL_HTML : string :=
  "<div style=" ++ DQ ++ "padding: 2rem; text-align: center;" ++ DQ
    ++ ">Fatal Error: Root element not found</div>".

Section Startup.

(** The static markup of the template literal of lines 29-126, before and
    after its one interpolation [${error.message}]. *)
Variable ERROR_SCREEN_HEAD : string.
Variable ERROR_SCREEN_TAIL : string.

(** [showErrorScreen(error)], lines 21-127. *)
Definition showErrorScreen (e : JsThrown) (page : Page) : Page :=
  match page with
  | NoRoot _ => NoRoot FATAL_HTML
  | WithRoot _ =>
      WithRoot (Markup (ERROR_SCREEN_HEAD ++ message_of e ++ ERROR_SCREEN_TAIL))
  end.

(** The start-up function of lines 135-171.  [config] is how
    [await initializeConfig()] settles and [validation] what
    [validateConfig()] raises, if anything. *)
Definition startApp (config validation : option JsThrown) (page : Page) : Page :=
  match config with
  | Some err => showErrorScreen err page
  | None =>
      match validation with
      | Some err => showErrorScreen err page
      | None =>
          match page with
          | NoRoot _ =>
              showErrorScreen (ThrownError "Root element not found") page
          | WithRoot _ => WithRoot ReactApp
          end
      end
  end.

End Startup.

End Main.

(** * Properties *)

Local Open Scope list_scope.
Local Open Scope nat_scope.

(** ** Bookkeeping lemmas *)

Lemma when_Some b w w' : when b w = Some w' ↔ b = true ∧ w' = w.
Proof.
  destruct b; simpl; split.
  - intros [= <-]; auto.
  - intros [_ ->]; auto.
  - discriminate.
  - intros [? _]; discriminate.
Qed.

Lemma exec_app tr1 tr2 w :
  exec (tr1 ++ tr2) w = exec tr1 w ≫= exec tr2.
Proof.
  revert w. induction tr1 as [|l tr1 IH]; intros w; simpl; [done|].
  destruct (step l w); simpl; auto.
Qed.

Lemma reachable_initial : reachable initial_world.
Proof. by exists []. Qed.

Lemma reachable_step l w w' :
  reachable w → step l w = Some w' → reachable w'.
Proof.
  intros [tr Htr] Hstep. exists (tr ++ [l]).
  rewrite exec_app, Htr. simpl. by rewrite Hstep.
Qed.

Lemma reachable_exec tr w w' :
  reachable w → exec tr w = Some w' → reachable w'.
Proof.
  revert w. induction tr as [|l tr IH]; intros w Hw Hex; simpl in Hex.
  - congruence.
  - destruct (step l w) as [w1|] eqn:Hstep; [|done].
    eapply IH; [|exact Hex]. eapply reachable_step; eauto.
Qed.

(** Induction over the reachable states. *)
Lemma reachable_ind (P : World → Prop) :
  P initial_world →
  (∀ l w w', reachable w → P w → step l w = Some w' → P w') →
  ∀ w, reachable w → P w.
Proof.
  intros Hinit Hstep w [tr Htr].
  assert (Hgen : ∀ tr w0 w1, reachable w0 → P w0 → exec tr w0 = Some w1 → P w1).
  { clear w tr Htr. induction tr as [|l tr IH]; intros w0 w1 Hr HP Hex; simpl in Hex.
    - congruence.
    - destruct (step l w0) as [w'|] eqn:Hs; [|done].
      eapply (IH w'); eauto using reachable_step. }
  eapply Hgen; eauto using reachable_initial.
Qed.

Lemma world_selected_a_reachable : reachable world_selected_a.
Proof. exists trace_selected_a. vm_compute. reflexivity. Defined.


Lemma elem_of_remove_first t u l :
  u ∈ remove_first t l → u ∈ l.
Proof.
  induction l as [|x l IH]; simpl; [done|].
  destruct (decide (x = t)); intros H.
  - by right.
  - apply elem_of_cons in H as [->|H]; [left|right; auto].
Qed.

Lemma elem_of_remove_first_ne t u l :
  u ≠ t → u ∈ l → u ∈ remove_first t l.
Proof.
  intros Hne. induction l as [|x l IH]; simpl; [done|].
  intros H. apply elem_of_cons in H as [<-|H].
  - destruct (decide (u = t)); [done|left].
  - destruct (decide (x = t)); [done|right; auto].
Qed.


Lemma mounted_at_mount k w :
  mounted_at k (effect_mount w) =
    if decide (k = length (runs w)) then true else mounted_at k w.
Proof.
  unfold mounted_at, effect_mount; simpl.
  destruct (decide (k = length (runs w))) as [->|Hne].
  - by rewrite lookup_app_r, Nat.sub_diag by lia.
  - destruct (decide (k < length (runs w))).
    + by rewrite lookup_app_l by done.
    + rewrite !lookup_ge_None_2; [done|lia|].
      rewrite length_app; simpl; lia.
Qed.

Lemma mounted_at_cleanup k j w :
  mounted_at k (effect_cleanup j w) =
    if decide (k = j) then false else mounted_at k w.
Proof.
  unfold mounted_at, effect_cleanup; simpl.
  destruct (decide (k = j)) as [->|Hne].
  - destruct (decide (j < length (runs w))).
    + by rewrite list_lookup_insert_eq by done.
    + rewrite list_insert_ge by lia.
      by rewrite lookup_ge_None_2 by lia.
  - by rewrite list_lookup_insert_ne by done.
Qed.

Ltac handler_cases :=
  repeat match goal with
  | |- context [match ?r with Fulfilled _ => _ | Rejected _ => _ end] => destruct r
  | |- context [if negb (mounted_at ?k ?w) then _ else _] =>
      destruct (mounted_at k w) eqn:?; simpl
  | |- context [if mounted_at ?k ?w then _ else _] =>
      destruct (mounted_at k w) eqn:?; simpl
  | |- context [match ?o with Some _ => _ | None => _ end] => destruct o eqn:?; simpl
  | |- context [if ?b then _ else _] => destruct b eqn:?; simpl
  end.

Lemma runs_listeners_of_step l w w' :
  step l w = Some w' →
  (l = LMount ∧ w' = effect_mount w
     ∧ forallb (λ r, negb (mounted r)) (runs w) = true)
  ∨ (∃ k, l = LCleanup k ∧ w' = effect_cleanup k w)
  ∨ (runs w' = runs w ∧ listeners w' = listeners w).
Proof.
  destruct l; simpl; intros H; try apply when_Some in H as [Hb ->];
    try (injection H as <-).
  - left; auto.
  - right; left; eauto.
  - right; right. unfold initializeAuth_resumed. handler_cases; auto.
  - right; right. unfold onAuthStateChange_handler. handler_cases; auto.
  - right; right. unfold deferred_load. handler_cases; auto.
  - right; right. unfold loadBusinesses_settled. handler_cases; auto.
  - right; right. unfold loadSubscription_settled. handler_cases; auto.
  - right; right. unfold selectBusiness. handler_cases; auto.
  - right; right. unfold refreshBusinesses. handler_cases; auto.
  - right; right. unfold refreshSubscription. handler_cases; auto.
  - right; right. auto.
  - right; right. unfold signInWithOAuth_settled. handler_cases; auto.
  - right; right. auto.
  - right; right. unfold signOut_settled. handler_cases; auto.
Qed.

Lemma listeners_live_reachable w : reachable w → listeners_live w.
Proof.
  revert w. apply reachable_ind.
  - intros k Hk. by apply elem_of_nil in Hk.
  - intros l w w' _ IH Hstep k Hk.
    destruct (runs_listeners_of_step _ _ _ Hstep)
      as [(-> & -> & _) | [(j & -> & ->) | [Hr Hl]]].
    + rewrite mounted_at_mount. destruct (decide (k = length (runs w))); [done|].
      simpl in Hk. apply elem_of_app in Hk as [Hk|Hk]; [by apply IH|].
      apply list_elem_of_singleton in Hk. done.
    + rewrite mounted_at_cleanup. simpl in Hk.
      apply list_elem_of_filter in Hk as [Hne Hk].
      destruct (decide (k = j)); [done|by apply IH].
    + unfold mounted_at. rewrite Hr. rewrite Hl in Hk. by apply IH.
Qed.

(** Case analysis on a step: one goal per path through the handler that the
    label dispatches, with the written cells in evidence. *)
Ltac step_cases H :=
  match type of H with
  | step ?l ?w = Some ?w' =>
      destruct l; simpl in H;
      first [ apply when_Some in H as [? ->] | injection H as <- ];
      unfold initializeAuth_resumed, onAuthStateChange_handler, deferred_load,
        loadBusinesses_settled, loadSubscription_settled, selectBusiness,
        refreshBusinesses, refreshSubscription, signInWithOAuth_called,
        signInWithOAuth_settled, signOut_called, signOut_settled,
        load_user_data;
      handler_cases; simpl
  end.

(** ** Session store *)

Lemma auth_consistent_step l w w' :
  auth_consistent (ctx w) → step l w = Some w' → auth_consistent (ctx w').
Proof.
  unfold auth_consistent. intros Hinv Hstep.
  step_cases Hstep; try exact Hinv;
    try (split; [intros; split; congruence | reflexivity]);
    try (split; [discriminate | intros [? ?]; congruence]);
    match goal with E : _ = _ |- _ => rewrite E; exact Hinv end.
Qed.

(** C3. In every state the component can reach (after the bootstrap
    resolution, after any transition of the event listener, after any
    action or loader continuation), [isAuthenticated] is true exactly when
    [session] and [user] are both non-null. *)
Theorem isAuthenticated_iff_session_and_user w :
  reachable w → auth_consistent (ctx w).
Proof.
  revert w. apply reachable_ind.
  - unfold auth_consistent; simpl. split; [discriminate|intros [? _]; congruence].
  - intros l w w' _ IH Hstep. eapply auth_consistent_step; eauto.
Qed.

Lemma isAuthenticated_iff_session_and_user_witness :
  auth_consistent (ctx world_selected_a).
Proof.
  apply isAuthenticated_iff_session_and_user.
  exists trace_selected_a. vm_compute. reflexivity.
Defined.

(** ** Sign-out transition *)

(** The handler run of a delivered transition that carries no session. *)
Lemma signout_event_step w k event w' :
  reachable w →
  step (LAuthEvent k event None) w = Some w' →
  w' = setSubscription None
         (setSelectedBusiness None
           (setBusinesses []
             (setIsAuthenticated false (setUser None (setSession None w))))).
Proof.
  intros Hreach Hstep. simpl in Hstep.
  apply when_Some in Hstep as [Hk ->].
  apply bool_decide_eq_true in Hk.
  apply (listeners_live_reachable _ Hreach) in Hk.
  unfold onAuthStateChange_handler. by rewrite Hk.
Qed.




(** ** Bootstrap *)

(** C4, as stated, fails: the provider reports a failure of the session
    fetch in the [error] field of its answer; bootstrap logs it, continues
    with no session and never writes [error]. *)
Lemma bootstrap_provider_error_not_surfaced :
  ∃ w, exec [LMount;
             LSessionFetched 0
               (Fulfilled (mkGetSession None (Some "Auth session missing!"%string)))]
         initial_world = Some w
       ∧ error (ctx w) = None
       ∧ isLoading (ctx w) = false.
Proof. eexists. split; [vm_compute; reflexivity|]. split; reflexivity. Qed.

(** C4, amended. On a live run of the effect: if the session fetch raises
    an exception, bootstrap sets [error] to the exception's message
    (or to "Failed to initialize auth" when the raised value is not an
    [Error]) and forces the unauthenticated shape; if the provider instead
    reports the failure in the [error] field of its answer, bootstrap forces
    the unauthenticated shape and leaves [error] as it was; if the fetch
    succeeds with no session, bootstrap sets the unauthenticated shape and
    leaves [error] as it was. *)
Theorem bootstrap_failure_policy k w :
  mounted_at k w = true →
  (∀ err,
     let w' := initializeAuth_resumed k (Rejected err) w in
     error (ctx w') = Some (error_message "Failed to initialize auth" err)
     ∧ unauthenticated_shape (ctx w'))
  ∧ (∀ s m,
     let w' := initializeAuth_resumed k (Fulfilled (mkGetSession s (Some m))) w in
     error (ctx w') = error (ctx w) ∧ unauthenticated_shape (ctx w'))
  ∧ (let w' := initializeAuth_resumed k (Fulfilled (mkGetSession None None)) w in
     error (ctx w') = error (ctx w) ∧ unauthenticated_shape (ctx w')).
Proof.
  intros Hm. unfold initializeAuth_resumed, unauthenticated_shape.
  rewrite Hm. simpl. split; [|split].
  - intros err. repeat split.
  - intros s m. destruct s; simpl; repeat split.
  - repeat split.
Qed.

Lemma bootstrap_failure_policy_witness :
  let w := effect_mount initial_world in
  error (ctx (initializeAuth_resumed 0 (Rejected (PlainErr "Failed to fetch")) w))
    = Some "Failed to fetch"%string
  ∧ error (ctx (initializeAuth_resumed 0 (Rejected NotAnError) w))
    = Some "Failed to initialize auth"%string.
Proof.
  assert (Hm : mounted_at 0 (effect_mount initial_world) = true)
    by (vm_compute; reflexivity).
  destruct (bootstrap_failure_policy 0 (effect_mount initial_world) Hm)
    as [Hthrow _].
  split.
  - exact (proj1 (Hthrow (PlainErr "Failed to fetch"))).
  - exact (proj1 (Hthrow NotAnError)).
Defined.

(** ** Liveness guard and teardown *)

Lemma torn_down_step k l w w' :
  k < length (runs w) → mounted_at k w = false → k ∉ listeners w →
  step l w = Some w' →
  k < length (runs w') ∧ mounted_at k w' = false ∧ k ∉ listeners w'.
Proof.
  intros Hlt Hm Hl Hstep.
  destruct (runs_listeners_of_step _ _ _ Hstep)
    as [(-> & -> & _) | [(j & -> & ->) | [Hr Hls]]].
  - rewrite mounted_at_mount. simpl. rewrite length_app. simpl.
    split; [lia|]. split.
    + destruct (decide (k = length (runs w))); [lia|done].
    + intros Hin. apply elem_of_app in Hin as [Hin|Hin]; [done|].
      apply list_elem_of_singleton in Hin. lia.
  - rewrite mounted_at_cleanup. simpl. rewrite length_insert.
    split; [done|]. split.
    + destruct (decide (k = j)); done.
    + intros Hin. apply list_elem_of_filter in Hin as [_ Hin]. done.
  - unfold mounted_at in *. rewrite Hr, Hls. done.
Qed.

Lemma torn_down_exec k tr w w' :
  k < length (runs w) → mounted_at k w = false → k ∉ listeners w →
  exec tr w = Some w' →
  k < length (runs w') ∧ mounted_at k w' = false ∧ k ∉ listeners w'.
Proof.
  revert w. induction tr as [|l tr IH]; intros w Hlt Hm Hl Hex; simpl in Hex.
  - injection Hex as <-. done.
  - destruct (step l w) as [w1|] eqn:Hstep; [|done].
    destruct (torn_down_step _ _ _ _ Hlt Hm Hl Hstep) as (? & ? & ?).
    eapply IH; eauto.
Qed.

(** C9. Once the cleanup of a run of the effect has executed, at every
    later point: the continuation of that run's session fetch, whatever the
    fetch answers, writes no cell, leaves [localStorage] alone and starts no
    loader; the run's listener is no longer subscribed, and its handler and
    its deferred load, were they still called, change nothing. *)
Theorem teardown_silences_bootstrap_and_events k w w1 tr w2 :
  step (LCleanup k) w = Some w1 →
  exec tr w1 = Some w2 →
  (∀ r w3, step (LSessionFetched k r) w2 = Some w3 →
     ctx w3 = ctx w2 ∧ localStorage w3 = localStorage w2
     ∧ tasks w3 = remove_first (TGetSession k) (tasks w2))
  ∧ (∀ r, initializeAuth_resumed k r w2 = w2)
  ∧ (k ∉ listeners w2)
  ∧ (∀ event newSession w3, step (LAuthEvent k event newSession) w2 ≠ Some w3)
  ∧ (∀ event newSession, onAuthStateChange_handler k event newSession w2 = w2)
  ∧ (∀ uid, deferred_load k uid w2 = w2).
Proof.
  intros Hclean Hexec. simpl in Hclean.
  apply when_Some in Hclean as [Hm ->].
  assert (Hlt : k < length (runs w)).
  { unfold mounted_at in Hm. destruct (runs w !! k) eqn:E; [|done].
    by apply lookup_lt_Some in E. }
  assert (H1 : k < length (runs (effect_cleanup k w))
               ∧ mounted_at k (effect_cleanup k w) = false
               ∧ k ∉ listeners (effect_cleanup k w)).
  { simpl. rewrite length_insert, mounted_at_cleanup.
    split; [done|]. split; [by destruct (decide (k = k))|].
    intros Hin. apply list_elem_of_filter in Hin as [Hne _]. done. }
  destruct H1 as (Hlt1 & Hm1 & Hl1).
  destruct (torn_down_exec _ _ _ _ Hlt1 Hm1 Hl1 Hexec) as (_ & Hm2 & Hl2).
  assert (Hinit : ∀ r w0, mounted_at k w0 = false → initializeAuth_resumed k r w0 = w0).
  { intros r w0 H0. unfold initializeAuth_resumed. rewrite H0. by destruct r. }
  repeat split.
  - apply when_Some in H as [_ ->]. by rewrite Hinit.
  - apply when_Some in H as [_ ->]. by rewrite Hinit.
  - apply when_Some in H as [_ ->]. by rewrite Hinit.
  - intros r. by apply Hinit.
  - exact Hl2.
  - intros event newSession w3 Hs. simpl in Hs.
    apply when_Some in Hs as [Hin _]. by apply bool_decide_eq_true in Hin.
  - intros event newSession. unfold onAuthStateChange_handler. by rewrite Hm2.
  - intros uid. unfold deferred_load. by rewrite Hm2.
Qed.

Lemma teardown_silences_bootstrap_and_events_witness :
  let w2 := effect_cleanup 0 (effect_mount initial_world) in
  initializeAuth_resumed 0 (Fulfilled (mkGetSession (Some session_U) None)) w2 = w2
  ∧ onAuthStateChange_handler 0 SIGNED_IN (Some session_U) w2 = w2.
Proof.
  assert (H1 : step (LCleanup 0) (effect_mount initial_world)
               = Some (effect_cleanup 0 (effect_mount initial_world)))
    by (vm_compute; reflexivity).
  assert (H2 : exec [] (effect_cleanup 0 (effect_mount initial_world))
               = Some (effect_cleanup 0 (effect_mount initial_world)))
    by reflexivity.
  destruct (teardown_silences_bootstrap_and_events 0 _ _ [] _ H1 H2)
    as (_ & Hb & _ & _ & He & _).
  split; [apply Hb | apply He].
Defined.

(** The guard is on the session fetch only: a loader that bootstrap started
    before the teardown still writes when it settles afterwards. *)
Example loader_in_flight_writes_after_teardown :
  ∃ w, exec [LMount;
             LSessionFetched 0 (Fulfilled (mkGetSession (Some session_U) None));
             LCleanup 0;
             LBusinessesSettled None "U" (Fulfilled (mkResponse true (Some [biz_a])))]
         initial_world = Some w
       ∧ businesses (ctx w) = [biz_a]
       ∧ selectedBusiness (ctx w) = Some biz_a.
Proof. eexists. split; [vm_compute; reflexivity|]. split; reflexivity. Qed.

(** ** Selection *)

Lemma find_business_Some businessId bs b :
  find_business businessId bs = Some b → b ∈ bs ∧ b_id b = businessId.
Proof.
  unfold find_business. intros H. apply find_some in H as [Hin Hb].
  split; [by apply list_elem_of_In|by apply bool_decide_eq_true in Hb].
Qed.

Lemma find_business_None businessId bs :
  find_business businessId bs = None ↔ ∀ b, b ∈ bs → b_id b ≠ businessId.
Proof.
  unfold find_business. split.
  - intros H b Hin Hid. apply list_elem_of_In in Hin.
    pose proof (find_none _ _ H b Hin) as Hb. simpl in Hb.
    apply bool_decide_eq_false in Hb. done.
  - intros H. destruct (find _ bs) as [b|] eqn:E; [|done].
    apply find_some in E as [Hin Hb]. apply bool_decide_eq_true in Hb.
    apply list_elem_of_In in Hin. by destruct (H b Hin).
Qed.

(** C6. For every id and every business set: when some business of the set
    carries the id, [selectBusiness] makes a business of the set with that id
    the selected one, stores the id under "oslira-selected-business" and
    changes nothing else; when no business of the set carries the id, the
    call leaves the whole state (selection, [error], storage) as it was. *)
Theorem selectBusiness_present_or_noop businessId w :
  ((∃ b, b ∈ businesses (ctx w) ∧ b_id b = businessId) →
   ∃ b, b ∈ businesses (ctx w) ∧ b_id b = businessId
        ∧ selectBusiness businessId w
            = setItem SELECTED_KEY businessId (setSelectedBusiness (Some b) w)
        ∧ selectedBusiness (ctx (selectBusiness businessId w)) = Some b
        ∧ localStorage (selectBusiness businessId w) !! SELECTED_KEY
            = Some businessId
        ∧ error (ctx (selectBusiness businessId w)) = error (ctx w)
        ∧ businesses (ctx (selectBusiness businessId w)) = businesses (ctx w))
  ∧ ((∀ b, b ∈ businesses (ctx w) → b_id b ≠ businessId) →
     selectBusiness businessId w = w).
Proof.
  split.
  - intros (b0 & Hin0 & Hid0). unfold selectBusiness.
    destruct (find_business businessId (businesses (ctx w))) as [b|] eqn:E.
    + apply find_business_Some in E as [Hin Hid]. exists b. rewrite Hid.
      repeat split; try done. simpl. apply lookup_insert_eq.
    + exfalso. eapply find_business_None; eauto.
  - intros Habs. unfold selectBusiness.
    apply find_business_None in Habs. by rewrite Habs.
Qed.

Lemma selectBusiness_present_or_noop_witness :
  selectedBusiness (ctx (selectBusiness "a" world_selected_a)) = Some biz_a
  ∧ selectBusiness "zzz" world_selected_a = world_selected_a.
Proof.
  destruct (selectBusiness_present_or_noop "a" world_selected_a) as [Hyes _].
  destruct (selectBusiness_present_or_noop "zzz" world_selected_a) as [_ Hno].
  split.
  - destruct Hyes as (b & Hb & _ & _ & Hsel & _).
    + exists biz_a. split; [by left|reflexivity].
    + rewrite Hsel. vm_compute in Hb.
      apply list_elem_of_singleton in Hb. by subst b.
  - apply Hno. intros b Hb. vm_compute in Hb.
    apply list_elem_of_singleton in Hb. subst b. discriminate.
Defined.

(** Scenario D of the specification. *)
Example selectBusiness_scenario_D :
  let w := setBusinesses [biz_a] initial_world in
  selectedBusiness (ctx (selectBusiness "zzz" w)) = None.
Proof. reflexivity. Qed.

(** ** Subscription loader *)

(** C7. Whatever the answer of the subscription fetch: a successful answer
    with data stores the server record; a successful answer without data, an
    unsuccessful answer and a rejected fetch store the free-tier record
    (plan "free", status "active", 25 credits, 0 used, a period from the
    clock reading to 30 days after the clock reading); [subscription] is
    non-null afterwards on every path, and no other cell is written. *)
Theorem loadSubscription_stores_record_or_free_tier userId r t_start t_now w :
  let w' := loadSubscription_settled userId r t_start t_now w in
  (∀ d, r = Fulfilled (mkResponse true (Some d)) →
        subscription (ctx w') = Some d)
  ∧ (∀ ok, r = Fulfilled (mkResponse ok None) →
        subscription (ctx w') = Some (free_tier userId t_start t_now))
  ∧ (∀ d, r = Fulfilled (mkResponse false d) →
        subscription (ctx w') = Some (free_tier userId t_start t_now))
  ∧ (∀ err, r = Rejected err →
        subscription (ctx w') = Some (free_tier userId t_start t_now))
  ∧ subscription (ctx w') ≠ None
  ∧ free_tier userId t_start t_now
      = {| sub_id := EmptyString; sub_user_id := userId;
           sub_plan := "free"; sub_status := "active";
           sub_credits := 25; sub_credits_used := 0;
           sub_period_start := toISOString t_start;
           sub_period_end := toISOString (t_now + 2592000000) |}
  ∧ (user (ctx w'), session (ctx w'), isAuthenticated (ctx w'),
     isLoading (ctx w'), error (ctx w'), businesses (ctx w'),
     selectedBusiness (ctx w'), localStorage w')
    = (user (ctx w), session (ctx w), isAuthenticated (ctx w),
       isLoading (ctx w), error (ctx w), businesses (ctx w),
       selectedBusiness (ctx w), localStorage w).
Proof.
  simpl. repeat split.
  - intros d ->. reflexivity.
  - intros ok ->. by destruct ok.
  - intros d ->. reflexivity.
  - intros err ->. reflexivity.
  - destruct r as [[[] []]|]; simpl; discriminate.
  - destruct r as [[[] []]|]; reflexivity.
Qed.

(** Scenario C of the specification, at the clock reading 1700000000000. *)
Example loadSubscription_scenario_C :
  subscription
    (ctx (loadSubscription_settled "U" (Rejected (PlainErr "Network Error"))
            1700000000000 1700000000000 initial_world))
  = Some {| sub_id := EmptyString; sub_user_id := "U";
            sub_plan := "free"; sub_status := "active";
            sub_credits := 25; sub_credits_used := 0;
            sub_period_start := "2023-11-14T22:13:20.000Z";
            sub_period_end := "2023-12-14T22:13:20.000Z" |}.
Proof. vm_compute. reflexivity. Qed.

(** ** Subscription invariant *)

(** What a step does to [subscription]: a sign-out transition apart, it
    either leaves the cell alone or is a subscription load storing its
    record. *)
Lemma subscription_step l w w' :
  step l w = Some w' → is_signout_event l = false →
  (stored_subscription l = None ∧ subscription (ctx w') = subscription (ctx w))
  ∨ (∃ s, stored_subscription l = Some s ∧ subscription (ctx w') = Some s).
Proof.
  intros Hstep Hev.
  step_cases Hstep; try discriminate Hev; try (left; split; reflexivity).
  all: right; eexists; split; [|reflexivity]; simpl;
    try match goal with E : success_data _ = _ |- _ => rewrite E end; reflexivity.
Qed.

Lemma subscription_kept_along tr : ∀ w w' (seen : list UserSubscription),
  (∃ s, subscription (ctx w) = Some s ∧ s ∈ seen) →
  exec tr w = Some w' →
  forallb (λ l, negb (is_signout_event l)) tr = true →
  ∃ s, subscription (ctx w') = Some s ∧ s ∈ seen ++ omap stored_subscription tr.
Proof.
  induction tr as [|l tr IH]; intros w w' seen Hs Hex Hno; simpl in *.
  - injection Hex as <-. destruct Hs as (s & ? & ?). exists s.
    rewrite app_nil_r. done.
  - destruct (step l w) as [w1|] eqn:Hstep; [|done].
    apply andb_true_iff in Hno as [Hl Hno]. apply negb_true_iff in Hl.
    destruct (subscription_step _ _ _ Hstep Hl) as [[Hst Hsub]|(s1 & Hst & Hsub)];
      rewrite Hst.
    + apply (IH w1 w' seen); [|done|done]. by rewrite Hsub.
    + destruct (IH w1 w' (seen ++ [s1])) as (s & ? & Hin); [|done|done|].
      { exists s1. split; [done|]. apply elem_of_app. right. by left. }
      exists s. split; [done|]. by rewrite <- app_assoc in Hin.
Qed.


(** C2, as stated, fails: the session of [U] has completed its derived-load
    cycle (both loaders settled, the server record stored), and the sign-out
    transition that follows sets [subscription] back to null. *)
Lemma subscription_null_after_signout :
  ∃ w1 w2,
    exec (trace_selected_a
            ++ [LSubscriptionSettled "U"
                  (Fulfilled (mkResponse true (Some server_subscription)))
                  1700000000000 1700000000000])
      initial_world = Some w1
    ∧ tasks w1 = []
    ∧ subscription (ctx w1) = Some server_subscription
    ∧ step (LAuthEvent 0 SIGNED_OUT None) w1 = Some w2
    ∧ subscription (ctx w2) = None.
Proof.
  eexists. eexists. split; [vm_compute; reflexivity|].
  split; [reflexivity|]. split; [reflexivity|].
  split; [vm_compute; reflexivity|]. reflexivity.
Qed.

(** C2, amended. Once a subscription load has settled, [subscription] is
    non-null at every later point up to the next sign-out transition
    (a change-stream transition that carries no session): along any run of
    the component that handles no such transition it holds the record one
    of the subscription loads settled so far has stored, the server record
    or the free-tier record. *)
Theorem subscription_non_null_until_signout uid r t_start t_now w w1 tr w2 :
  step (LSubscriptionSettled uid r t_start t_now) w = Some w1 →
  exec tr w1 = Some w2 →
  forallb (λ l, negb (is_signout_event l)) tr = true →
  subscription (ctx w2) ≠ None
  ∧ ∃ s, subscription (ctx w2) = Some s
         ∧ s ∈ omap stored_subscription
                 (LSubscriptionSettled uid r t_start t_now :: tr).
Proof.
  intros Hstep Hex Hno.
  destruct (subscription_step _ _ _ Hstep eq_refl) as [[Hst _]|(s1 & Hst & Hsub)].
  { exfalso. by destruct r. }
  destruct (subscription_kept_along tr w1 w2 [s1]) as (s & Hs & Hin); auto.
  { exists s1. split; [done|by left]. }
  split; [by rewrite Hs|].
  exists s. split; [done|]. simpl. simpl in Hst. by rewrite Hst.
Qed.

Lemma subscription_non_null_until_signout_witness :
  subscription
    (ctx (selectBusiness "a"
            (loadSubscription_settled "U" (Rejected (PlainErr "Network Error"))
               1700000000000 1700000000000
               (finish (TLoadSubscription "U") world_selected_a))))
  ≠ None.
Proof.
  refine (proj1 (subscription_non_null_until_signout "U"
            (Rejected (PlainErr "Network Error")) 1700000000000 1700000000000
            world_selected_a _ [LSelectBusiness "a"] _ _ _ _)).
  - vm_compute. reflexivity.
  - reflexivity.
  - reflexivity.
Defined.

(** ** Selection and the business set *)




(** A successful fetch of an empty set empties the set as well, and keeps
    the selection. *)
Example empty_fetch_keeps_selection :
  ∃ w, exec (trace_selected_a
               ++ [LRefreshBusinesses;
                   LBusinessesSettled (Some biz_a) "U"
                     (Fulfilled (mkResponse true (Some [])))])
         initial_world = Some w
       ∧ businesses (ctx w) = []
       ∧ selectedBusiness (ctx w) = Some biz_a.
Proof. eexists. split; [vm_compute; reflexivity|]. split; reflexivity. Qed.

(** ** Loading flag *)



















(** Scenario A of the specification. *)
Example bootstrap_scenario_A :
  ∃ w, exec [LMount; LSessionFetched 0 (Fulfilled (mkGetSession None None))]
         initial_world = Some w
       ∧ isAuthenticated (ctx w) = false ∧ isLoading (ctx w) = false
       ∧ error (ctx w) = None ∧ subscription (ctx w) = None
       ∧ businesses (ctx w) = [].
Proof. eexists. split; [vm_compute; reflexivity|]. repeat split. Qed.

(** ** The Instagram analysis mutation *)

Section MutationProperties.

Import Instagram.

Context {Response ApiFailure : Type}.
Variable analyzeInstagramAnonymous : jsstring → Response + ApiFailure.
Variable isRateLimitError : ApiFailure → bool.
Variable generateDemoResults : jsstring → Response.
Variable hasOnRateLimit : bool.

Local Abbreviation run :=
  (mutationFn Response ApiFailure analyzeInstagramAnonymous
     isRateLimitError generateDemoResults hasOnRateLimit).

(** The cleaned username is empty exactly for an input that trims to
    nothing or to a lone ['@']. *)
Lemma cleanUsername_empty username :
  cleanUsername username = [] ↔ trim username = [] ∨ trim username = [AT_SIGN].
Proof.
  unfold cleanUsername. destruct (trim username) as [|c [|c' s]]; simpl.
  - split; auto.
  - destruct (N.eqb_spec c AT_SIGN) as [->|Hne].
    + split; auto.
    + split; [discriminate|]. intros [H|H]; [discriminate|].
      injection H as ->. done.
  - destruct (c =? AT_SIGN)%N; (split; [discriminate|]);
      intros [H|H]; discriminate.
Qed.

(** C10. For every input whose cleaned username
    ([username.trim().replace('@', '')]) is empty, the mutation rejects
    with "Please enter an Instagram username" and calls no collaborator,
    the API included.  For every input whose cleaned username is non-empty,
    the API is called with the cleaned username; when that call fails with
    a value that is not a rate-limit error the mutation resolves with
    [generateDemoResults] of the cleaned username, and when it fails with a
    rate-limit error the mutation rejects with that same error. *)
Theorem mutationFn_error_policy username :
  (cleanUsername username = [] →
     run username = ([], inr (InputError "Please enter an Instagram username"))
     ∧ ¬ calls_api (run username).1)
  ∧ (cleanUsername username ≠ [] →
     CallAnalyze (cleanUsername username) ∈ (run username).1
     ∧ (∀ result,
          analyzeInstagramAnonymous (cleanUsername username) = inl result →
          (run username).2 = inl result)
     ∧ (∀ e,
          analyzeInstagramAnonymous (cleanUsername username) = inr e →
          isRateLimitError e = false →
          (run username).2 = inl (generateDemoResults (cleanUsername username)))
     ∧ (∀ e,
          analyzeInstagramAnonymous (cleanUsername username) = inr e →
          isRateLimitError e = true →
          (run username).2 = inr (ApiError e))).
Proof.
  unfold mutationFn. split.
  - intros ->. split; [reflexivity|].
    intros [u Hu]. simpl in Hu. by apply elem_of_nil in Hu.
  - intros Hne. destruct (cleanUsername username) as [|c s] eqn:E; [done|].
    split; [|split; [|split]].
    + destruct (analyzeInstagramAnonymous (c :: s)) as [res|e]; simpl.
      * by left.
      * destruct (isRateLimitError e); simpl; by left.
    + intros result ->. reflexivity.
    + intros e -> ->. reflexivity.
    + intros e -> ->. reflexivity.
Qed.

End MutationProperties.

Lemma mutationFn_error_policy_witness :
  let failing (u : Instagram.jsstring) : Instagram.jsstring + bool := inr false in
  let run := Instagram.mutationFn Instagram.jsstring bool failing id id true in
  run [64%N] = ([], inr (Instagram.InputError "Please enter an Instagram username"))
  ∧ (run [32; 64; 98; 111; 98; 32]%N).2 = inl [98; 111; 98]%N.
Proof.
  split.
  - apply (mutationFn_error_policy (λ _, inr false) id id true [64%N]).
    reflexivity.
  - destruct (mutationFn_error_policy (ApiFailure := bool) (λ _, inr false) id id true
                [32; 64; 98; 111; 98; 32]%N) as [_ Hnonempty].
    destruct Hnonempty as (_ & _ & Hdemo & _); [discriminate|].
    apply (Hdemo false); reflexivity.
Defined.

(** [replace] with a string pattern removes one ['@']: an input of two is
    cleaned to a lone ['@'], which is non-empty and goes to the API. *)
Example cleanUsername_two_at_signs :
  Instagram.cleanUsername [64; 64]%N = [64%N].
Proof. reflexivity. Qed.

(** * Further properties of the coordinator *)

(** ** The session store follows the session *)

Lemma session_store_tracks_step l w w' :
  session_store_tracks (ctx w) → step l w = Some w' →
  session_store_tracks (ctx w').
Proof.
  unfold session_store_tracks. intros Hinv Hstep.
  step_cases Hstep; try exact Hinv; try (split; reflexivity);
    match goal with E : _ = _ |- _ => rewrite E; exact Hinv end.
Qed.

Lemma session_store_tracks_reachable w :
  reachable w → session_store_tracks (ctx w).
Proof.
  revert w. apply reachable_ind.
  - split; reflexivity.
  - intros l w w' _ IH Hstep. eapply session_store_tracks_step; eauto.
Qed.

(** X1. In every reachable state [user] is the user embedded in the current
    [session], both are null together, and [isAuthenticated] is true exactly
    when a session is held. *)
Theorem user_is_the_session_user w :
  reachable w →
  user (ctx w) = s_user <$> session (ctx w)
  ∧ (user (ctx w) = None ↔ session (ctx w) = None)
  ∧ (isAuthenticated (ctx w) = true ↔ ∃ s, session (ctx w) = Some s).
Proof.
  intros Hr. destruct (session_store_tracks_reachable _ Hr) as [Hu Ha].
  split; [exact Hu|]. rewrite Hu, Ha. split.
  - destruct (session (ctx w)); simpl; split; congruence.
  - destruct (session (ctx w)) as [s|]; simpl; split; eauto.
    + discriminate.
    + intros [s ?]. discriminate.
Qed.

Lemma user_is_the_session_user_witness :
  user (ctx world_selected_a) = s_user <$> session (ctx world_selected_a).
Proof.
  exact (proj1 (user_is_the_session_user world_selected_a
                  world_selected_a_reachable)).
Defined.

(** X2. In a reachable state that is not authenticated, [refreshBusinesses]
    and [refreshSubscription] do nothing at all; in one that holds a session
    each sends exactly one request, for the id of the session's user. *)
Theorem refresh_only_for_session_user w :
  reachable w →
  (isAuthenticated (ctx w) = false →
     refreshBusinesses w = w ∧ refreshSubscription w = w)
  ∧ (∀ s, session (ctx w) = Some s →
       refreshBusinesses w
         = spawn (TLoadBusinesses (selectedBusiness (ctx w)) (u_id (s_user s))) w
       ∧ refreshSubscription w = spawn (TLoadSubscription (u_id (s_user s))) w).
Proof.
  intros Hr. destruct (session_store_tracks_reachable _ Hr) as [Hu Ha].
  unfold refreshBusinesses, refreshSubscription. rewrite Hu. split.
  - intros Hf. rewrite Hf in Ha. destruct (session (ctx w)); [discriminate|].
    split; reflexivity.
  - intros s ->. split; reflexivity.
Qed.

Lemma refresh_only_for_session_user_witness :
  refreshBusinesses initial_world = initial_world
  ∧ refreshSubscription world_selected_a
    = spawn (TLoadSubscription "U") world_selected_a.
Proof.
  split.
  - apply (proj1 (refresh_only_for_session_user initial_world reachable_initial)).
    reflexivity.
  - apply (proj2 (refresh_only_for_session_user world_selected_a
                    world_selected_a_reachable) session_U).
    reflexivity.
Defined.

(** ** Listener registration and the liveness flag *)

Lemma mounted_listens_reachable w :
  reachable w → ∀ k, mounted_at k w = true → k ∈ listeners w.
Proof.
  revert w.
  apply (reachable_ind (λ w, ∀ k, mounted_at k w = true → k ∈ listeners w)).
  - intros k Hk. discriminate Hk.
  - intros l w w' _ IH Hstep k Hk.
    destruct (runs_listeners_of_step _ _ _ Hstep)
      as [(-> & -> & _) | [(j & -> & ->) | [Hr Hl]]].
    + rewrite mounted_at_mount in Hk. simpl. apply elem_of_app.
      destruct (decide (k = length (runs w))) as [->|].
      * right. by left.
      * left. by apply IH.
    + rewrite mounted_at_cleanup in Hk. simpl.
      destruct (decide (k = j)); [discriminate|].
      apply list_elem_of_filter. split; [done|by apply IH].
    + rewrite Hl. apply IH. unfold mounted_at in *. by rewrite <- Hr.
Qed.

(** X3. In every reachable state the listener of a run of the effect is
    subscribed exactly while that run's [mounted] flag is true; hence every
    transition the provider delivers is applied: the session it carries
    (or null) is the session afterwards. *)
Theorem listener_subscribed_iff_mounted w k :
  reachable w →
  (k ∈ listeners w ↔ mounted_at k w = true)
  ∧ (∀ event newSession w',
       step (LAuthEvent k event newSession) w = Some w' →
       session (ctx w') = newSession
       ∧ user (ctx w') = s_user <$> newSession).
Proof.
  intros Hr. split.
  - split; [apply (listeners_live_reachable _ Hr)|apply (mounted_listens_reachable _ Hr)].
  - intros event newSession w' Hstep. simpl in Hstep.
    apply when_Some in Hstep as [Hk ->]. apply bool_decide_eq_true in Hk.
    apply (listeners_live_reachable _ Hr) in Hk.
    unfold onAuthStateChange_handler. rewrite Hk. simpl.
    destruct newSession as [s|]; [|done].
    destruct (schedules_load event); done.
Qed.

Lemma listener_subscribed_iff_mounted_witness :
  0 ∈ listeners world_selected_a ↔ mounted_at 0 world_selected_a = true.
Proof.
  exact (proj1 (listener_subscribed_iff_mounted world_selected_a 0
                  world_selected_a_reachable)).
Defined.

(** ** Business loader and persistence *)

(** X4. A business fetch that is rejected, that answers unsuccessfully or
    that answers without data changes nothing: the set and the selection
    stay as they were, [error] is not written and nothing is persisted. *)
Theorem loadBusinesses_failure_changes_nothing captured uid r w w' :
  step (LBusinessesSettled captured uid r) w = Some w' →
  (∀ response, r = Fulfilled response → success_data response = None) →
  ctx w' = ctx w ∧ localStorage w' = localStorage w
  ∧ tasks w' = remove_first (TLoadBusinesses captured uid) (tasks w).
Proof.
  intros Hstep Hfail. simpl in Hstep. apply when_Some in Hstep as [_ ->].
  unfold loadBusinesses_settled. destruct r as [response|e]; [|done].
  by rewrite (Hfail response eq_refl).
Qed.

Lemma loadBusinesses_failure_changes_nothing_witness :
  ctx (loadBusinesses_settled (Some biz_a) "U" (Rejected (PlainErr "Network Error"))
         (finish (TLoadBusinesses (Some biz_a) "U")
            (refreshBusinesses world_selected_a)))
  = ctx (refreshBusinesses world_selected_a).
Proof.
  refine (proj1 (loadBusinesses_failure_changes_nothing (Some biz_a) "U"
            (Rejected (PlainErr "Network Error"))
            (refreshBusinesses world_selected_a) _ _ _)).
  - vm_compute. reflexivity.
  - intros response H. discriminate H.
Defined.

(** X5. [error] is written by the bootstrap's [catch], by the start of an
    action and by the end of an action, and by nothing else: no loader
    continuation, no change-stream transition, no deferred load, no
    selection, no refresh and no successful or provider-reported-failed
    session fetch ever changes it. *)
Theorem error_written_only_by_bootstrap_catch_and_actions l w w' :
  step l w = Some w' →
  may_write_error l = false →
  error (ctx w') = error (ctx w).
Proof.
  intros Hstep Hl. step_cases Hstep; try discriminate Hl; reflexivity.
Qed.

Lemma error_written_only_by_bootstrap_catch_and_actions_witness :
  error (ctx (loadSubscription_settled "U" (Rejected (PlainErr "Network Error"))
                1700000000000 1700000000000
                (finish (TLoadSubscription "U") world_selected_a)))
  = error (ctx world_selected_a).
Proof.
  refine (error_written_only_by_bootstrap_catch_and_actions
            (LSubscriptionSettled "U" (Rejected (PlainErr "Network Error"))
               1700000000000 1700000000000) world_selected_a _ _ _).
  - vm_compute. reflexivity.
  - reflexivity.
Defined.

(** X6. Whenever a step changes the selection to a business, the id of
    that business is what "oslira-selected-business" holds after the
    step. *)
Theorem selection_change_is_persisted l w w' b :
  step l w = Some w' →
  selectedBusiness (ctx w') = Some b →
  selectedBusiness (ctx w') ≠ selectedBusiness (ctx w) →
  localStorage w' !! SELECTED_KEY = Some (b_id b).
Proof.
  intros Hstep.
  step_cases Hstep; intros Hsel Hne; try (by destruct Hne);
    try discriminate Hsel;
    injection Hsel as <-; apply lookup_insert_eq.
Qed.

Lemma selection_change_is_persisted_witness :
  localStorage (selectBusiness "b" (setBusinesses [biz_a; biz_b] world_selected_a))
    !! SELECTED_KEY = Some "b"%string.
Proof.
  refine (selection_change_is_persisted (LSelectBusiness "b")
            (setBusinesses [biz_a; biz_b] world_selected_a) _ biz_b _ _ _).
  - reflexivity.
  - reflexivity.
  - vm_compute. intros H. discriminate H.
Defined.




(** ** How the handlers compose *)

(** X8. Bootstrap followed by the first business load, for every session
    and every non-empty fetched list: the component ends authenticated for
    the session's user and no longer loading, with no error, the fetched list
    as its business set, the first fetched business selected and that
    business's id persisted; the subscription load is still in flight. *)
Theorem bootstrap_then_first_business_selected s b d :
  ∃ w,
    exec [LMount;
          LSessionFetched 0 (Fulfilled (mkGetSession (Some s) None));
          LBusinessesSettled None (u_id (s_user s))
            (Fulfilled (mkResponse true (Some (b :: d))))]
      initial_world = Some w
    ∧ session_cells (ctx w) = (Some s, Some (s_user s), true)
    ∧ isLoading (ctx w) = false
    ∧ error (ctx w) = None
    ∧ businesses (ctx w) = b :: d
    ∧ selectedBusiness (ctx w) = Some b
    ∧ localStorage w = {[SELECTED_KEY := b_id b]}
    ∧ tasks w = [TLoadSubscription (u_id (s_user s))].
Proof.
  eexists. split.
  - cbn [exec]. change (step LMount initial_world) with (Some (effect_mount initial_world)).
    cbn [step]. unfold when at 1.
    change (in_flight (TGetSession 0) (effect_mount initial_world)) with true.
    cbv iota. cbn [step]. unfold when, in_flight.
    rewrite bool_decide_eq_true_2; [reflexivity|].
    simpl. by left.
  - simpl. rewrite decide_True by done.
    repeat split.
Qed.

(** X9. The loaders are not tied to the session that started them: a
    business load that settles after a sign-out transition puts its list
    back into the cleared business set (and selects its first business when
    the load had captured no selection), and a subscription load that
    settles after it makes [subscription] non-null again, while the
    component stays unauthenticated. *)
Theorem loads_land_after_signout w k event w1 :
  reachable w →
  step (LAuthEvent k event None) w = Some w1 →
  (∀ captured uid response d w2,
     step (LBusinessesSettled captured uid (Fulfilled response)) w1 = Some w2 →
     success_data response = Some d →
     session_cells (ctx w2) = (None, None, false)
     ∧ businesses (ctx w2) = d
     ∧ selectedBusiness (ctx w2)
       = match captured with Some _ => None | None => head d end)
  ∧ (∀ uid r t_start t_now w2,
     step (LSubscriptionSettled uid r t_start t_now) w1 = Some w2 →
     session_cells (ctx w2) = (None, None, false)
     ∧ subscription (ctx w2) ≠ None).
Proof.
  intros Hr Hstep. rewrite (signout_event_step _ _ _ _ Hr Hstep). split.
  - intros captured uid response d w2 Hs Hd. simpl in Hs.
    apply when_Some in Hs as [_ ->].
    unfold loadBusinesses_settled. rewrite Hd.
    destruct captured as [c|]; simpl.
    + rewrite andb_false_r. done.
    + rewrite andb_true_r. destruct d as [|b0 d]; done.
  - intros uid r t_start t_now w2 Hs. simpl in Hs.
    apply when_Some in Hs as [_ ->].
    unfold loadSubscription_settled.
    destruct r as [response|e]; [destruct (success_data response)|]; done.
Qed.

Lemma loads_land_after_signout_witness :
  let w := effect_mount initial_world in
  let w0 := initializeAuth_resumed 0 (Fulfilled (mkGetSession (Some session_U) None))
              (finish (TGetSession 0) w) in
  let w1 := onAuthStateChange_handler 0 SIGNED_OUT None w0 in
  businesses
    (ctx (loadBusinesses_settled None "U" (Fulfilled (mkResponse true (Some [biz_a])))
            (finish (TLoadBusinesses None "U") w1))) = [biz_a].
Proof.
  assert (Hr : reachable
                 (initializeAuth_resumed 0
                    (Fulfilled (mkGetSession (Some session_U) None))
                    (finish (TGetSession 0) (effect_mount initial_world)))).
  { exists [LMount; LSessionFetched 0 (Fulfilled (mkGetSession (Some session_U) None))].
    vm_compute. reflexivity. }
  set (w0 := initializeAuth_resumed 0
               (Fulfilled (mkGetSession (Some session_U) None))
               (finish (TGetSession 0) (effect_mount initial_world))) in *.
  assert (H1 : step (LAuthEvent 0 SIGNED_OUT None) w0
               = Some (onAuthStateChange_handler 0 SIGNED_OUT None w0))
    by (vm_compute; reflexivity).
  destruct (loads_land_after_signout _ 0 SIGNED_OUT _ Hr H1) as [Hb _].
  assert (H2 : step (LBusinessesSettled None "U"
                       (Fulfilled (mkResponse true (Some [biz_a]))))
                 (onAuthStateChange_handler 0 SIGNED_OUT None w0)
               = Some (loadBusinesses_settled None "U"
                         (Fulfilled (mkResponse true (Some [biz_a])))
                         (finish (TLoadBusinesses None "U")
                            (onAuthStateChange_handler 0 SIGNED_OUT None w0))))
    by (vm_compute; reflexivity).
  destruct (Hb None "U"%string (mkResponse true (Some [biz_a])) [biz_a] _
              H2 eq_refl) as (_ & Hbs & _).
  exact Hbs.
Defined.

(** X10. A delivered transition that carries a session sets the session
    store to that session and its user and touches nothing else: the
    business set, the selection, the subscription, [isLoading], [error] and
    [localStorage] stay, and no request is sent inside the handler.  For
    SIGNED_IN and TOKEN_REFRESHED, and for no other event, one deferred load
    is armed; when it fires it sends both requests for the session's user
    and writes no cell. *)
Theorem signin_event_defers_loading w k event s w' :
  reachable w →
  step (LAuthEvent k event (Some s)) w = Some w' →
  session_cells (ctx w') = (Some s, Some (s_user s), true)
  ∧ (businesses (ctx w'), selectedBusiness (ctx w'), subscription (ctx w'),
     isLoading (ctx w'), error (ctx w'), localStorage w')
    = (businesses (ctx w), selectedBusiness (ctx w), subscription (ctx w),
       isLoading (ctx w), error (ctx w), localStorage w)
  ∧ tasks w'
    = tasks w ++ (if schedules_load event
                  then [TDeferred k (u_id (s_user s))] else [])
  ∧ (schedules_load event = true →
     ∃ w'', step (LDeferredFired k (u_id (s_user s))) w' = Some w''
            ∧ ctx w'' = ctx w'
            ∧ TLoadBusinesses (captured_at k w) (u_id (s_user s)) ∈ tasks w''
            ∧ TLoadSubscription (u_id (s_user s)) ∈ tasks w'').
Proof.
  intros Hr Hstep. simpl in Hstep.
  apply when_Some in Hstep as [Hk ->]. apply bool_decide_eq_true in Hk.
  apply (listeners_live_reachable _ Hr) in Hk.
  unfold onAuthStateChange_handler. rewrite Hk. simpl.
  destruct (schedules_load event) eqn:Hev; simpl.
  - split; [done|]. split; [done|]. split; [done|]. intros _.
    eexists. split.
    + unfold when, in_flight. rewrite bool_decide_eq_true_2; [reflexivity|].
      simpl. apply elem_of_app. right. by left.
    + match goal with |- context [deferred_load k ?u ?x] =>
        assert (Hm : mounted_at k x = true) by exact Hk;
        unfold deferred_load; rewrite Hm
      end.
      simpl. split; [done|].
      rewrite !elem_of_app, !list_elem_of_singleton. auto.
  - split; [done|]. split; [done|]. split; [by rewrite app_nil_r|]. discriminate.
Qed.

Lemma signin_event_defers_loading_witness :
  tasks (onAuthStateChange_handler 0 TOKEN_REFRESHED (Some session_U) world_selected_a)
  = tasks world_selected_a ++ [TDeferred 0 "U"].
Proof.
  assert (H1 : step (LAuthEvent 0 TOKEN_REFRESHED (Some session_U)) world_selected_a
               = Some (onAuthStateChange_handler 0 TOKEN_REFRESHED
                         (Some session_U) world_selected_a))
    by (vm_compute; reflexivity).
  destruct (signin_event_defers_loading _ 0 TOKEN_REFRESHED session_U _
              world_selected_a_reachable H1) as (_ & _ & Ht & _).
  exact Ht.
Defined.

(** X11. Bootstrap and the event listener overwrite the session store in
    the order they run, with no merge.  When a transition with a session is
    handled first and the session fetch then answers with no session, the
    store ends unauthenticated, although the deferred load of the transition
    stays armed; in the opposite order the store ends with the transition's
    session, whatever the fetch answered. *)
Theorem bootstrap_and_event_last_write_wins w k event s :
  reachable w →
  (∀ e w1,
     exec [LAuthEvent k event (Some s);
           LSessionFetched k (Fulfilled (mkGetSession None e))] w = Some w1 →
     session_cells (ctx w1) = (None, None, false)
     ∧ (schedules_load event = true →
        TDeferred k (u_id (s_user s)) ∈ tasks w1))
  ∧ (∀ r w2,
     exec [LSessionFetched k r; LAuthEvent k event (Some s)] w = Some w2 →
     session_cells (ctx w2) = (Some s, Some (s_user s), true)).
Proof.
  intros Hr. split.
  - intros e w1 Hex. cbn [exec] in Hex.
    destruct (step (LAuthEvent k event (Some s)) w) as [wa|] eqn:H1;
      [|discriminate Hex].
    destruct (step (LSessionFetched k (Fulfilled (mkGetSession None e))) wa)
      as [wb|] eqn:H2; [|discriminate Hex].
    injection Hex as <-.
    cbn [step] in H1, H2.
    apply when_Some in H1 as [Hk ->]. apply when_Some in H2 as [_ ->].
    apply bool_decide_eq_true in Hk.
    apply (listeners_live_reachable _ Hr) in Hk.
    assert (Hev : onAuthStateChange_handler k event (Some s) w
                  = (if schedules_load event
                     then spawn (TDeferred k (u_id (s_user s))) else id)
                      (setIsAuthenticated true
                         (setUser (Some (s_user s)) (setSession (Some s) w)))).
    { unfold onAuthStateChange_handler. rewrite Hk. simpl.
      by destruct (schedules_load event). }
    rewrite Hev.
    match goal with |- context [initializeAuth_resumed k ?r ?x] =>
      assert (Hm : mounted_at k x = true)
        by (destruct (schedules_load event); exact Hk);
      unfold initializeAuth_resumed; rewrite Hm
    end.
    simpl. split; [by destruct e|]. intros ->. destruct e; simpl.
    all: apply elem_of_remove_first_ne; [discriminate|].
    all: apply elem_of_app; right; by left.
  - intros r w2 Hex. cbn [exec] in Hex.
    destruct (step (LSessionFetched k r) w) as [wa|] eqn:H1;
      [|discriminate Hex].
    destruct (step (LAuthEvent k event (Some s)) wa) as [wb|] eqn:H2;
      [|discriminate Hex].
    injection Hex as <-.
    pose proof (reachable_step _ _ _ Hr H1) as Hra.
    cbn [step] in H2. apply when_Some in H2 as [Hk ->].
    apply bool_decide_eq_true in Hk.
    apply (listeners_live_reachable _ Hra) in Hk.
    unfold onAuthStateChange_handler. rewrite Hk. simpl.
    by destruct (schedules_load event).
Qed.

Lemma bootstrap_and_event_last_write_wins_witness :
  let w := effect_mount initial_world in
  session_cells
    (ctx (initializeAuth_resumed 0 (Fulfilled (mkGetSession None None))
            (finish (TGetSession 0)
               (onAuthStateChange_handler 0 SIGNED_IN (Some session_U) w))))
  = (None, None, false).
Proof.
  assert (Hr : reachable (effect_mount initial_world))
    by (exists [LMount]; vm_compute; reflexivity).
  assert (Hex : exec [LAuthEvent 0 SIGNED_IN (Some session_U);
                      LSessionFetched 0 (Fulfilled (mkGetSession None None))]
                  (effect_mount initial_world)
                = Some (initializeAuth_resumed 0 (Fulfilled (mkGetSession None None))
                          (finish (TGetSession 0)
                             (onAuthStateChange_handler 0 SIGNED_IN (Some session_U)
                                (effect_mount initial_world)))))
    by (vm_compute; reflexivity).
  exact (proj1 (proj1 (bootstrap_and_event_last_write_wins _ 0 SIGNED_IN session_U Hr)
                  None _ Hex)).
Defined.

(** ** Actions *)

(** X12. One [signInWithOAuth] call, from its start to its end, whatever
    the provider answers: [isLoading] ends false; the call raises exactly
    when the provider reports or raises a failure, and a raised value is
    re-raised unchanged; [error] ends null when nothing was raised (an
    earlier message is cleared) and otherwise holds the message of the
    raised value if that is an auth error and "Failed to sign in with
    Google" if not; no other cell and nothing in [localStorage] changes. *)
Theorem signInWithOAuth_outcome r w :
  let res := signInWithOAuth_settled r (finish TSignIn (signInWithOAuth_called w)) in
  isLoading (ctx res.1) = false
  ∧ (res.2 = None ↔ r = Fulfilled None)
  ∧ (∀ e, r = Rejected e → res.2 = Some e)
  ∧ (∀ m, r = Fulfilled (Some m) → res.2 = Some (AuthErr m))
  ∧ error (ctx res.1)
    = auth_error_message "Failed to sign in with Google" <$> res.2
  ∧ (session_cells (ctx res.1), businesses (ctx res.1),
     selectedBusiness (ctx res.1), subscription (ctx res.1), localStorage res.1)
    = (session_cells (ctx w), businesses (ctx w),
       selectedBusiness (ctx w), subscription (ctx w), localStorage w).
Proof.
  destruct r as [[m|]|e]; simpl; repeat split; try congruence; try discriminate.
Qed.

(** X13. One [signOut] call, from its start to its end, whatever the
    provider answers: [isLoading] ends false; the call raises exactly when
    the provider reports or raises a failure; [error] ends null when nothing
    was raised and otherwise holds the auth error's message or "Failed to
    sign out"; the persisted selection is removed exactly when nothing was
    raised; and the action itself clears none of the session, business,
    selection and subscription cells. *)
Theorem signOut_outcome r w :
  let res := signOut_settled r (finish TSignOut (signOut_called w)) in
  isLoading (ctx res.1) = false
  ∧ (res.2 = None ↔ r = Fulfilled None)
  ∧ (∀ e, r = Rejected e → res.2 = Some e)
  ∧ (∀ m, r = Fulfilled (Some m) → res.2 = Some (AuthErr m))
  ∧ error (ctx res.1) = auth_error_message "Failed to sign out" <$> res.2
  ∧ localStorage res.1
    = (if res.2 is None then delete SELECTED_KEY (localStorage w)
       else localStorage w)
  ∧ (session_cells (ctx res.1), businesses (ctx res.1),
     selectedBusiness (ctx res.1), subscription (ctx res.1))
    = (session_cells (ctx w), businesses (ctx w),
       selectedBusiness (ctx w), subscription (ctx w)).
Proof.
  destruct r as [[m|]|e]; simpl; repeat split; try congruence; try discriminate.
Qed.

(** * Further properties of the analysis mutation *)

Section CleaningProperties.

Import Instagram.

Local Abbreviation ws := (λ c : N, is_white_space c = true).

Lemma trimStart_app_ws (pad s : jsstring) :
  Forall ws pad → trimStart (pad ++ s) = trimStart s.
Proof. induction 1 as [|c pad Hc _ IH]; simpl; [done|]. by rewrite Hc. Qed.

Lemma trimStart_all_ws (s : jsstring) : Forall ws s → trimStart s = [].
Proof. intros H. rewrite <- (app_nil_r s). by rewrite trimStart_app_ws. Qed.

Lemma trimStart_head (s : jsstring) c t :
  trimStart s = c :: t → is_white_space c = false.
Proof.
  induction s as [|x s IH]; simpl; [done|].
  destruct (is_white_space x) eqn:E; [done|]. by intros [= <- _].
Qed.

Lemma trimStart_split (s : jsstring) :
  ∃ pad, Forall ws pad ∧ s = pad ++ trimStart s.
Proof.
  induction s as [|x s (pad & Hpad & IH)]; simpl.
  - by exists [].
  - destruct (is_white_space x) eqn:E.
    + exists (x :: pad). split; [by constructor|]. simpl. by rewrite <- IH.
    + by exists [].
Qed.

Lemma trimStart_nil (s : jsstring) : trimStart s = [] → Forall ws s.
Proof.
  intros H. destruct (trimStart_split s) as (pad & Hpad & Hs).
  rewrite H, app_nil_r in Hs. by subst.
Qed.

Lemma trimStart_app_keep (s t : jsstring) :
  trimStart s ≠ [] → trimStart (s ++ t) = trimStart s ++ t.
Proof.
  induction s as [|x s IH]; simpl; [done|].
  destruct (is_white_space x); [exact IH|done].
Qed.

Lemma trimEnd_app_ws (s pad : jsstring) :
  Forall ws pad → trimEnd (s ++ pad) = trimEnd s.
Proof.
  intros H. unfold trimEnd. rewrite rev_app_distr, trimStart_app_ws; [done|].
  apply Forall_forall. intros c Hc. apply list_elem_of_In, in_rev in Hc.
  apply list_elem_of_In in Hc. rewrite Forall_forall in H. auto.
Qed.

(** White space around the input is ignored by [trim]. *)
Lemma trim_padding (pad1 u pad2 : jsstring) :
  Forall ws pad1 → Forall ws pad2 → trim (pad1 ++ u ++ pad2) = trim u.
Proof.
  intros H1 H2. unfold trim. rewrite trimStart_app_ws by done.
  destruct (trimStart u) as [|c t] eqn:E.
  - rewrite trimStart_all_ws; [done|].
    apply Forall_app. split; [by apply trimStart_nil|done].
  - rewrite trimStart_app_keep by (rewrite E; done).
    rewrite E. by apply trimEnd_app_ws.
Qed.

Lemma rev_eq_nil (s : jsstring) : rev s = [] → s = [].
Proof. intros H. apply (f_equal (@rev N)) in H. by rewrite rev_involutive in H. Qed.

Lemma Forall_ws_rev (s : jsstring) : Forall ws (rev s) → Forall ws s.
Proof.
  rewrite !Forall_forall. intros H c Hc. apply H.
  apply list_elem_of_In. apply -> in_rev. by apply list_elem_of_In.
Qed.

Lemma trim_nil (u : jsstring) : trim u = [] ↔ Forall ws u.
Proof.
  split.
  - unfold trim, trimEnd. intros H. apply rev_eq_nil, trimStart_nil in H.
    apply Forall_ws_rev in H.
    destruct (trimStart u) as [|c t] eqn:E; [by apply trimStart_nil|].
    apply trimStart_head in E. inversion H; congruence.
  - intros H. unfold trim. by rewrite trimStart_all_ws.
Qed.

Lemma trim_lone_at (u : jsstring) :
  trim u = [AT_SIGN]
  ↔ ∃ pad1 pad2, Forall ws pad1 ∧ Forall ws pad2 ∧ u = pad1 ++ [AT_SIGN] ++ pad2.
Proof.
  split.
  - unfold trim, trimEnd. intros H.
    destruct (trimStart_split u) as (pad1 & Hp1 & Hu).
    apply (f_equal (@rev N)) in H. rewrite rev_involutive in H. simpl in H.
    destruct (trimStart_split (rev (trimStart u))) as (pad2 & Hp2 & Hr).
    rewrite H in Hr. apply (f_equal (@rev N)) in Hr.
    rewrite rev_involutive, rev_app_distr in Hr. simpl in Hr.
    exists pad1, (rev pad2). split; [done|]. split.
    + apply Forall_ws_rev. by rewrite rev_involutive.
    + rewrite Hu at 1. by rewrite Hr.
  - intros (pad1 & pad2 & H1 & H2 & ->). by rewrite trim_padding.
Qed.

End CleaningProperties.

Lemma remove_first_at_absent (s : Instagram.jsstring) :
  Instagram.AT_SIGN ∉ s → Instagram.remove_first_at s = s.
Proof.
  induction s as [|c s IH]; simpl; [done|]. intros Hnot.
  destruct (N.eqb_spec c Instagram.AT_SIGN) as [->|Hne].
  - destruct Hnot. by left.
  - rewrite IH; [done|]. intros Hin. apply Hnot. by right.
Qed.

Lemma remove_first_at_present (p q : Instagram.jsstring) :
  Instagram.AT_SIGN ∉ p →
  Instagram.remove_first_at (p ++ Instagram.AT_SIGN :: q) = p ++ q.
Proof.
  induction p as [|c p IH]; simpl; [done|]. intros Hnot.
  destruct (N.eqb_spec c Instagram.AT_SIGN) as [->|Hne].
  - destruct Hnot. by left.
  - rewrite IH; [done|]. intros Hin. apply Hnot. by right.
Qed.

(** X14. The cleaning removes one ['@'], the first one of the trimmed
    input wherever it stands, and keeps every later one; a trimmed input
    without ['@'] is passed on as it is. *)
Theorem cleanUsername_removes_first_at_only (username : Instagram.jsstring) :
  (Instagram.AT_SIGN ∉ Instagram.trim username →
   Instagram.cleanUsername username = Instagram.trim username)
  ∧ (∀ p q, Instagram.AT_SIGN ∉ p →
       Instagram.trim username = p ++ Instagram.AT_SIGN :: q →
       Instagram.cleanUsername username = p ++ q).
Proof.
  unfold Instagram.cleanUsername. split.
  - apply remove_first_at_absent.
  - intros p q Hp ->. by apply remove_first_at_present.
Qed.

Lemma cleanUsername_removes_first_at_only_witness :
  Instagram.cleanUsername [32; 98; 64; 111; 64; 98; 32]%N = [98; 111; 64; 98]%N.
Proof.
  apply (proj2 (cleanUsername_removes_first_at_only
                  [32; 98; 64; 111; 64; 98; 32]%N) [98%N] [111; 64; 98]%N).
  - intros H. apply list_elem_of_singleton in H. discriminate H.
  - reflexivity.
Defined.

Section FurtherMutationProperties.

Import Instagram.

Context {Response ApiFailure : Type}.
Variable analyzeInstagramAnonymous : jsstring → Response + ApiFailure.
Variable isRateLimitError : ApiFailure → bool.
Variable generateDemoResults : jsstring → Response.
Variable hasOnSuccess : bool.
Variable hasOnRateLimit : bool.
Variable hasOnError : bool.

Local Abbreviation run :=
  (mutationFn Response ApiFailure analyzeInstagramAnonymous
     isRateLimitError generateDemoResults hasOnRateLimit).

Local Abbreviation notify :=
  (InstagramHook.mutate Response ApiFailure analyzeInstagramAnonymous
     isRateLimitError generateDemoResults hasOnSuccess hasOnRateLimit hasOnError).

(** X15. White space before and after the input makes no difference to
    the mutation: the same calls are made and the promise settles the same
    way. *)
Theorem mutationFn_ignores_surrounding_white_space (pad1 username pad2 : jsstring) :
  Forall (λ c, is_white_space c = true) pad1 →
  Forall (λ c, is_white_space c = true) pad2 →
  run (pad1 ++ username ++ pad2) = run username.
Proof.
  intros H1 H2. unfold mutationFn, cleanUsername. by rewrite trim_padding.
Qed.

(** X16. The mutation rejects with "Please enter an Instagram username"
    exactly for the inputs that consist of white space only, or of one ['@']
    with nothing but white space around it; for these it calls nothing. *)
Theorem mutationFn_input_error_iff (username : jsstring) :
  ((run username).2 = inr (InputError "Please enter an Instagram username")
   ↔ Forall (λ c, is_white_space c = true) username
     ∨ ∃ pad1 pad2, Forall (λ c, is_white_space c = true) pad1
                    ∧ Forall (λ c, is_white_space c = true) pad2
                    ∧ username = pad1 ++ [AT_SIGN] ++ pad2)
  ∧ ((run username).2 = inr (InputError "Please enter an Instagram username") →
     (run username).1 = []).
Proof.
  assert (Hchar : (run username).2 = inr (InputError "Please enter an Instagram username")
                  ↔ cleanUsername username = []).
  { unfold mutationFn. destruct (cleanUsername username) as [|c s]; [done|].
    split; [|done].
    destruct (analyzeInstagramAnonymous (c :: s)) as [res|e]; simpl; [done|].
    destruct (isRateLimitError e); simpl; discriminate. }
  split.
  - rewrite Hchar, cleanUsername_empty, trim_nil, trim_lone_at. done.
  - intros H. apply Hchar in H. unfold mutationFn. by rewrite H.
Qed.

(** X17. What the mutation calls: the API at most once, first, and only
    with the non-empty cleaned username (there is no retry); the consumer's
    rate-limit callback only when it is provided and the API failed with a
    rate-limit error, which the mutation then rejects with; the demo
    generator only for the cleaned username after an API failure that is not
    a rate-limit error, whose result the mutation then resolves with. *)
Theorem mutationFn_call_discipline (username : jsstring) :
  ((run username).1 = []
   ∨ ∃ rest, (run username).1 = CallAnalyze (cleanUsername username) :: rest
             ∧ cleanUsername username ≠ []
             ∧ ∀ u, CallAnalyze u ∉ rest)
  ∧ (∀ e, CallOnRateLimit e ∈ (run username).1 →
       hasOnRateLimit = true
       ∧ analyzeInstagramAnonymous (cleanUsername username) = inr e
       ∧ isRateLimitError e = true
       ∧ (run username).2 = inr (ApiError e))
  ∧ (∀ u, CallGenerateDemo u ∈ (run username).1 →
       u = cleanUsername username
       ∧ (run username).2 = inl (generateDemoResults (cleanUsername username))
       ∧ ∃ e, analyzeInstagramAnonymous (cleanUsername username) = inr e
              ∧ isRateLimitError e = false).
Proof.
  unfold mutationFn.
  destruct (cleanUsername username) as [|c s] eqn:Hc; simpl.
  { split; [by left|]. split; intros ? H; by apply elem_of_nil in H. }
  destruct (analyzeInstagramAnonymous (c :: s)) as [res|e] eqn:Ha; simpl.
  { split; [right; exists []; repeat split; [done|]; intros u H; by apply elem_of_nil in H|].
    split; intros ? H; apply list_elem_of_singleton in H; discriminate H. }
  destruct (isRateLimitError e) eqn:He; simpl.
  - split.
    + right. eexists. split; [reflexivity|]. split; [done|].
      intros u H. destruct hasOnRateLimit.
      * apply list_elem_of_singleton in H. discriminate H.
      * by apply elem_of_nil in H.
    + split.
      * intros e' H. apply elem_of_cons in H as [H|H]; [discriminate H|].
        destruct hasOnRateLimit; [|by apply elem_of_nil in H].
        apply list_elem_of_singleton in H. injection H as ->. done.
      * intros u H. apply elem_of_cons in H as [H|H]; [discriminate H|].
        destruct hasOnRateLimit; [|by apply elem_of_nil in H].
        apply list_elem_of_singleton in H. discriminate H.
  - split.
    + right. eexists. split; [reflexivity|]. split; [done|].
      intros u H. apply list_elem_of_singleton in H. discriminate H.
    + split.
      * intros e' H. apply elem_of_cons in H as [H|H]; [discriminate H|].
        apply list_elem_of_singleton in H. discriminate H.
      * intros u H. apply elem_of_cons in H as [H|H]; [discriminate H|].
        apply list_elem_of_singleton in H. injection H as ->. eauto.
Qed.

(** X18. What the consumer of the hook is told, in order.  An empty
    cleaned username: [onError] with the input error.  An API answer:
    [onSuccess] with it.  A rate-limit error: [onRateLimit] and then
    [onError], both with that error.  Any other API failure: [onSuccess]
    with the demo results and no error callback at all.  No run reports both
    a success and an error. *)
Theorem mutate_notifications (username : jsstring) :
  (cleanUsername username = [] →
     notify username
     = if hasOnError
       then [InstagramHook.NotifiedError
               (InputError "Please enter an Instagram username")]
       else [])
  ∧ (cleanUsername username ≠ [] →
     (∀ result,
        analyzeInstagramAnonymous (cleanUsername username) = inl result →
        notify username
        = if hasOnSuccess then [InstagramHook.NotifiedSuccess result] else [])
     ∧ (∀ e,
        analyzeInstagramAnonymous (cleanUsername username) = inr e →
        isRateLimitError e = true →
        notify username
        = (if hasOnRateLimit then [InstagramHook.NotifiedRateLimit e] else [])
            ++ (if hasOnError then [InstagramHook.NotifiedError (ApiError e)]
                else []))
     ∧ (∀ e,
        analyzeInstagramAnonymous (cleanUsername username) = inr e →
        isRateLimitError e = false →
        notify username
        = if hasOnSuccess
          then [InstagramHook.NotifiedSuccess
                  (generateDemoResults (cleanUsername username))]
          else []))
  ∧ (∀ d e, InstagramHook.NotifiedSuccess d ∈ notify username →
            InstagramHook.NotifiedError e ∉ notify username).
Proof.
  unfold InstagramHook.mutate, mutationFn, InstagramHook.onSuccess,
    InstagramHook.onError.
  destruct (cleanUsername username) as [|c s]; simpl.
  { split; [done|]. split; [done|].
    intros d e H. destruct hasOnError.
    - apply list_elem_of_singleton in H. discriminate H.
    - by apply elem_of_nil in H. }
  split; [done|].
  destruct (analyzeInstagramAnonymous (c :: s)) as [res|e0]; simpl.
  { split.
    - intros _. split; [by intros ? [= <-]|]. split; intros ? [=].
    - intros d e _ H. destruct hasOnSuccess.
      + apply list_elem_of_singleton in H. discriminate H.
      + by apply elem_of_nil in H. }
  destruct (isRateLimitError e0) eqn:He; simpl.
  - split.
    + intros _. split; [intros ? [=]|]. split.
      * intros e [= <-] _. by destruct hasOnRateLimit.
      * intros e [= <-] Hf. congruence.
    + intros d e H. exfalso.
      destruct hasOnRateLimit, hasOnError; simpl in H;
        repeat (apply elem_of_cons in H as [H|H]; [discriminate H|]);
        by apply elem_of_nil in H.
  - split.
    + intros _. split; [intros ? [=]|]. split.
      * intros e [= <-] Ht. congruence.
      * by intros e [= <-] _.
    + intros d e _ H. destruct hasOnSuccess.
      * apply list_elem_of_singleton in H. discriminate H.
      * by apply elem_of_nil in H.
Qed.

End FurtherMutationProperties.

Lemma mutationFn_ignores_surrounding_white_space_witness :
  Instagram.mutationFn Instagram.jsstring bool (λ _, inr false) id id true
    [32; 9; 64; 98; 111; 98; 10]%N
  = Instagram.mutationFn Instagram.jsstring bool (λ _, inr false) id id true
      [64; 98; 111; 98]%N.
Proof.
  apply (mutationFn_ignores_surrounding_white_space (ApiFailure := bool)
           (λ _, inr false) id id true [32; 9]%N [64; 98; 111; 98]%N [10%N]).
  - repeat constructor.
  - repeat constructor.
Defined.

(** * Properties of the application entry point *)

Section StartupProperties.

Import Main.

Variable ERROR_SCREEN_HEAD : string.
Variable ERROR_SCREEN_TAIL : string.

Local Abbreviation start := (startApp ERROR_SCREEN_HEAD ERROR_SCREEN_TAIL).

(** X19. Start-up ends with the React application mounted exactly when the
    configuration was initialised, it validated, and the document has a
    [root] element; in every other case the document ends with an error
    screen in place of whatever it held. *)
Theorem startApp_mounts_iff config validation page :
  (start config validation page = WithRoot ReactApp
   ↔ config = None ∧ validation = None ∧ ∃ content, page = WithRoot content)
  ∧ (start config validation page ≠ WithRoot ReactApp →
     start config validation page = NoRoot FATAL_HTML
     ∨ ∃ message,
         start config validation page
         = WithRoot (Markup (ERROR_SCREEN_HEAD ++ message ++ ERROR_SCREEN_TAIL))%string).
Proof.
  unfold startApp, showErrorScreen. split; [split|].
  - intros H.
    destruct config, validation, page; simpl in H; try discriminate H; eauto.
  - intros (-> & -> & content & ->). reflexivity.
  - intros Hne.
    destruct config, validation, page; simpl in *; eauto.
    by destruct Hne.
Qed.

(** X20. What a failed start-up shows.  With a [root] element, the first
    failure (the configuration's, else the validation's) has its message,
    or for a raised non-error value its string rendering, inserted as it is
    between the two static parts of the error markup.  Without a [root]
    element the body becomes the fixed "Root element not found" markup
    whatever failed, so a configuration or validation message is not
    shown. *)
Theorem startApp_error_screen config validation :
  (∀ content err,
     (config = Some err ∨ (config = None ∧ validation = Some err)) →
     start config validation (WithRoot content)
     = WithRoot (Markup (ERROR_SCREEN_HEAD ++ message_of err ++ ERROR_SCREEN_TAIL))%string)
  ∧ (∀ body, start config validation (NoRoot body) = NoRoot FATAL_HTML).
Proof.
  unfold startApp, showErrorScreen. split.
  - intros content err [->|[-> ->]]; reflexivity.
  - intros body. destruct config, validation; reflexivity.
Qed.

End StartupProperties.
